(** * Cross-section of a mesh with the plane z = 0

    A shallow embedding of [section] from [__init__.py]: the edge
    classifier (the loop over [m.edges]), the face stitcher (the loop over
    [m.polygons]) and the final test on the accumulated edge list.

    The buffers, the mapping and the order of the branches are embedded on
    vectors of exact rationals in canonical form ([Qc]): what is proved there
    rests on the comparisons of the code and on which point it records, not
    on the value of an arithmetic expression.  What the arithmetic of the
    host's single-precision vectors makes of lines 136-152 is embedded
    apart, in [F32], on the IEEE 754 specification of the Standard Library;
    the numeric claims are settled there.  [ed.key], [p.edge_keys] and
    [itM @ co] belong to the host and are written out as the host defines
    them.  The three local buffers of [section] ([verts], [edges],
    [ed_xsect]) live in a heap next to the caller's mesh, and the code is
    written in a small state-and-exception monad over that heap.

    Around [section], the file also embeds [dupTest], [getObjectsAndDuplis]
    and the operator's [poll] and [execute]; what [execute] does to the
    selection and to the collections of the scene belongs to the host and is
    left out. *)

From Stdlib Require Import QArith Qcanon.
From Stdlib Require Import Floats.SpecFloat.
From stdpp Require Import base numbers list gmap.
From stdpp Require Import strings.

Local Open Scope Qc_scope.

(** ** Numbers *)

(** [EPSILON = 0.000001] *)
Definition EPSILON : Qc := Q2Qc (1 # 1000000).

(** Python's [a > 0] on a coordinate. *)
Definition gt0 (a : Qc) : bool := bool_decide (0 < a).

(** Python's [a < b]. *)
Definition ltb (a b : Qc) : bool := bool_decide (a < b).

(** Python's [abs]. *)
Definition abs (a : Qc) : Qc := if bool_decide (a < 0) then - a else a.

(** ** Vectors and the transform *)

(** A 3D [mathutils.Vector]. *)
Record Vector := mkVector { vx : Qc; vy : Qc; vz : Qc }.

#[export] Instance Vector_eq_dec : EqDecision Vector.
Proof. solve_decision. Defined.

Definition vadd (a b : Vector) : Vector :=
  mkVector (vx a + vx b) (vy a + vy b) (vz a + vz b).

Definition vsub (a b : Vector) : Vector :=
  mkVector (vx a - vx b) (vy a - vy b) (vz a - vz b).

Definition vscale (a : Vector) (t : Qc) : Vector :=
  mkVector (vx a * t) (vy a * t) (vz a * t).

(** A row of a 4x4 [mathutils.Matrix]. *)
Record Row := mkRow { r0 : Qc; r1 : Qc; r2 : Qc; r3 : Qc }.

Record Matrix := mkMatrix { row0 : Row; row1 : Row; row2 : Row; row3 : Row }.

(** A row applied to the vector extended by a fourth component 1. *)
Definition row_dot (r : Row) (v : Vector) : Qc :=
  r0 r * vx v + r1 r * vy v + r2 r * vz v + r3 r.

(** [itM @ co] for a 4x4 matrix and a 3D vector: the host extends the vector
    by 1, multiplies, and keeps the first three components. *)
Definition mat_mul_vec (M : Matrix) (v : Vector) : Vector :=
  mkVector (row_dot (row0 M) v) (row_dot (row1 M) v) (row_dot (row2 M) v).

Definition identity_matrix : Matrix :=
  mkMatrix (mkRow 1 0 0 0) (mkRow 0 1 0 0) (mkRow 0 0 1 0) (mkRow 0 0 0 1).

Local Close Scope Qc_scope.

(** ** The mesh *)

(** [ord_ind] of the host's [bpy_types]: the canonical (sorted) pair of two
    vertex indices. *)
Definition ord_ind (i1 i2 : nat) : nat * nat :=
  if bool_decide (i1 < i2) then (i1, i2) else (i2, i1).

(** A [MeshEdge]: [ed.vertices[0]] and [ed.vertices[1]]. *)
Record MeshEdge := mkEdge { ed_v0 : nat; ed_v1 : nat }.

(** [ed.key] *)
Definition ed_key (ed : MeshEdge) : nat * nat := ord_ind (ed_v0 ed) (ed_v1 ed).

#[export] Instance MeshEdge_eq_dec : EqDecision MeshEdge.
Proof. solve_decision. Defined.

(** A [MeshPolygon] with its ordered vertex indices. *)
Record MeshPolygon := mkPolygon { p_vertices : list nat }.

#[export] Instance MeshPolygon_eq_dec : EqDecision MeshPolygon.
Proof. solve_decision. Defined.

(** [p.edge_keys]: the keys of the consecutive vertex pairs, the last
    vertex being paired with the first. *)
Definition edge_keys (p : MeshPolygon) : list (nat * nat) :=
  let verts := p_vertices p in
  let vlen := length verts in
  map (λ i, ord_ind (nth i verts 0) (nth ((i + 1) mod vlen) verts 0)) (seq 0 vlen).

(** A [Mesh]: the [co] of each vertex, the edges and the polygons. *)
Record Mesh := mkMesh {
  m_vertices : list Vector;
  m_edges : list MeshEdge;
  m_polygons : list MeshPolygon
}.

#[export] Instance Mesh_eq_dec : EqDecision Mesh.
Proof. solve_decision. Defined.

(** ** The heap and the monad *)

(** The caller's mesh and the three buffers of [section]. *)
Record Heap := mkHeap {
  h_mesh : Mesh;
  h_verts : list Vector;
  h_edges : list (list nat);
  h_ed_xsect : gmap (nat * nat) nat
}.

#[export] Instance Heap_eq_dec : EqDecision Heap.
Proof. solve_decision. Defined.

Inductive exn := IndexError | ZeroDivisionError.

#[export] Instance exn_eq_dec : EqDecision exn.
Proof. solve_decision. Defined.

Inductive outcome (A : Type) :=
  | Ret (a : A)
  | Raise (e : exn).
Arguments Ret {A} a.
Arguments Raise {A} e.

#[export] Instance outcome_eq_dec {A} `{EqDecision A} : EqDecision (outcome A).
Proof. solve_decision. Defined.

Definition M (A : Type) : Type := Heap → outcome A * Heap.

#[export] Instance M_ret : MRet M := λ A a h, (Ret a, h).

#[export] Instance M_bind : MBind M := λ A B f c h,
  match c h with
  | (Ret a, h') => f a h'
  | (Raise e, h') => (Raise e, h')
  end.

Definition raise {A} (e : exn) : M A := λ h, (Raise e, h).

(** [m.vertices[id].co] *)
Definition get_vertex_co (id : nat) : M Vector := λ h,
  match m_vertices (h_mesh h) !! id with
  | Some co => (Ret co, h)
  | None => (Raise IndexError, h)
  end.

Definition get_mesh : M Mesh := λ h, (Ret (h_mesh h), h).
Definition get_verts : M (list Vector) := λ h, (Ret (h_verts h), h).
Definition get_edges : M (list (list nat)) := λ h, (Ret (h_edges h), h).
Definition get_ed_xsect : M (gmap (nat * nat) nat) := λ h, (Ret (h_ed_xsect h), h).

(** [verts = l] *)
Definition set_verts (l : list Vector) : M unit := λ h,
  (Ret (), mkHeap (h_mesh h) l (h_edges h) (h_ed_xsect h)).

(** [edges = l] *)
Definition set_edges (l : list (list nat)) : M unit := λ h,
  (Ret (), mkHeap (h_mesh h) (h_verts h) l (h_ed_xsect h)).

(** [ed_xsect = d] *)
Definition set_ed_xsect (d : gmap (nat * nat) nat) : M unit := λ h,
  (Ret (), mkHeap (h_mesh h) (h_verts h) (h_edges h) d).

(** [verts.append(co)] *)
Definition verts_append (co : Vector) : M unit := λ h,
  (Ret (), mkHeap (h_mesh h) (h_verts h ++ [co]) (h_edges h) (h_ed_xsect h)).

(** [edges.append(e)] *)
Definition edges_append (e : list nat) : M unit := λ h,
  (Ret (), mkHeap (h_mesh h) (h_verts h) (h_edges h ++ [e]) (h_ed_xsect h)).

(** [ed_xsect[key] = i] *)
Definition ed_xsect_setitem (key : nat * nat) (i : nat) : M unit := λ h,
  (Ret (), mkHeap (h_mesh h) (h_verts h) (h_edges h) (<[key := i]> (h_ed_xsect h))).

(** [a / b] on Python floats raises on a zero divisor. *)
Definition py_div (a b : Qc) : M Qc :=
  if bool_decide (b = Q2Qc 0) then raise ZeroDivisionError else mret (a / b)%Qc.

(** [for x in l: body(x)] *)
Fixpoint for_each {A} (body : A → M unit) (l : list A) : M unit :=
  match l with
  | [] => mret ()
  | x :: l' => body x ;; for_each body l'
  end.

(** ** The edge classifier *)

(** [p0 + (p1 - p0) * t] *)
Definition interpolate (p0 p1 : Vector) (t : Qc) : Vector :=
  vadd p0 (vscale (vsub p1 p0) t).

(** The two statements shared by the three branches:
    [ed_xsect[ed.key] = len(verts); verts.append(co)]. *)
Definition record_point (key : nat * nat) (co : Vector) : M unit :=
  vs ← get_verts;
  ed_xsect_setitem key (length vs);;
  verts_append co.

(** The body of [for ed in m.edges]. *)
Definition classify_edge (itM : Matrix) (ed : MeshEdge) : M unit :=
  let id0 := ed_v0 ed in
  co0 ← get_vertex_co id0;
  let p0 := mat_mul_vec itM co0 in
  let id1 := ed_v1 ed in
  co1 ← get_vertex_co id1;
  let p1 := mat_mul_vec itM co1 in
  let d0 := abs (vz p0) in
  let d1 := abs (vz p1) in
  if negb (eqb (gt0 (vz p0)) (gt0 (vz p1))) then
    t ← py_div d0 (d0 + d1)%Qc;
    let co := interpolate p0 p1 t in
    record_point (ed_key ed) co
  else if ltb d0 EPSILON then
    record_point (ed_key ed) p0
  else if ltb d1 EPSILON then
    record_point (ed_key ed) p1
  else mret ().

(** ** The face stitcher *)

(** [[ed_xsect[key] for key in keys if key in ed_xsect]] *)
Definition mapped_indices (ed_xsect : gmap (nat * nat) nat)
    (keys : list (nat * nat)) : list nat :=
  omap (λ key, ed_xsect !! key) keys.

(** [d[k] = v] on an insertion-ordered dict: an existing key keeps its place
    and takes the new value, a new key goes to the end. *)
Fixpoint dict_setitem {K V} `{EqDecision K} (d : list (K * V)) (k : K) (v : V)
    : list (K * V) :=
  match d with
  | [] => [(k, v)]
  | (k', v') :: d' =>
      if decide (k = k') then (k', v) :: d' else (k', v') :: dict_setitem d' k v
  end.

(** [d.values()] *)
Definition dict_values {K V} (d : list (K * V)) : list V := d.*2.

(** [{tuple(verts[id]): id for id in ps}], started from the dict [d];
    [None] when some [verts[id]] is out of range. *)
Fixpoint unique_from (verts : list Vector) (ps : list nat)
    (d : list (Vector * nat)) : option (list (Vector * nat)) :=
  match ps with
  | [] => Some d
  | id :: ps' =>
      match verts !! id with
      | Some co => unique_from verts ps' (dict_setitem d co id)
      | None => None
      end
  end.

Definition unique_dict (ps : list nat) : M (list (Vector * nat)) :=
  verts ← get_verts;
  match unique_from verts ps [] with
  | Some unique => mret unique
  | None => raise IndexError
  end.

(** The body of [for p in m.polygons]. *)
Definition stitch_polygon (p : MeshPolygon) : M unit :=
  ed_xsect ← get_ed_xsect;
  let ps := mapped_indices ed_xsect (edge_keys p) in
  let s := length ps in
  if bool_decide (s = 2) then
    edges_append ps
  else if bool_decide (2 < s) then
    unique ← unique_dict ps;
    if bool_decide (length unique = 2) then
      edges_append (dict_values unique)
    else mret ()
  else mret ().

(** ** [section] *)

(** What [section] returns: [False], or the object built by
    [from_pydata(verts, edges, [])], on which the host then welds doubles,
    fills the loops when [FILL] is set and recomputes the normals. *)
Inductive SectionResult :=
  | NoSection
  | SectionObject (verts : list Vector) (edges : list (list nat)) (FILL : bool).

#[export] Instance SectionResult_eq_dec : EqDecision SectionResult.
Proof. solve_decision. Defined.

Definition classify_edges (itM : Matrix) : M unit :=
  m ← get_mesh;
  for_each (classify_edge itM) (m_edges m).

Definition stitch_polygons : M unit :=
  m ← get_mesh;
  for_each stitch_polygon (m_polygons m).

Definition section (itM : Matrix) (FILL : bool) : M SectionResult :=
  set_verts [];;
  set_edges [];;
  set_ed_xsect ∅;;
  classify_edges itM;;
  stitch_polygons;;
  edges ← get_edges;
  match edges with
  | [] => mret NoSection
  | _ :: _ =>
      verts ← get_verts;
      mret (SectionObject verts edges FILL)
  end.

(** ** Heaps after one recorded point or one emitted edge *)

(** The heap after the three initial assignments of [section]: the mesh and
    three empty buffers. *)
Definition heap_of (m : Mesh) : Heap := mkHeap m [] [] ∅.

(** The heap after [ed_xsect[key] = len(verts); verts.append(co)]. *)
Definition with_point (key : nat * nat) (co : Vector) (h : Heap) : Heap :=
  mkHeap (h_mesh h) (h_verts h ++ [co]) (h_edges h)
         (<[key := length (h_verts h)]> (h_ed_xsect h)).

(** The heap after [edges.append(e)]. *)
Definition with_edge (e : list nat) (h : Heap) : Heap :=
  mkHeap (h_mesh h) (h_verts h) (h_edges h ++ [e]) (h_ed_xsect h).

(** ** Predicates used in the statements *)

(** A command keeps an invariant of the heap, whether it returns or raises. *)
Definition preserves {A} (I : Heap → Prop) (c : M A) : Prop :=
  ∀ h, I h → I (c h).2.

(** Every index stored in [ed_xsect] is a position of [verts]. *)
Definition xsect_bounded (h : Heap) : Prop :=
  map_Forall (λ _ i, i < length (h_verts h)) (h_ed_xsect h).

(** Every emitted edge is a pair of positions of [verts]. *)
Definition edges_bounded (h : Heap) : Prop :=
  Forall (λ e, length e = 2 ∧ Forall (λ i, i < length (h_verts h)) e) (h_edges h).

(** Every edge of the mesh refers to existing vertices. *)
Definition mesh_ok (m : Mesh) : Prop :=
  Forall (λ ed, ed_v0 ed < length (m_vertices m) ∧ ed_v1 ed < length (m_vertices m))
         (m_edges m).

(** The sign test of the first branch: [(p0.z > 0) != (p1.z > 0)]. *)
Definition sign_test (p0 p1 : Vector) : bool :=
  negb (eqb (gt0 (vz p0)) (gt0 (vz p1))).

(** The point of the first branch, with [t = d0 / (d0 + d1)]. *)
Definition crossing_point (p0 p1 : Vector) : Vector :=
  interpolate p0 p1 (abs (vz p0) / (abs (vz p0) + abs (vz p1)))%Qc.

(** The keys of a polygon that are present in the mapping, in polygon
    edge order. *)
Definition present_keys (d : gmap (nat * nat) nat) (p : MeshPolygon)
    : list (nat * nat) :=
  filter (λ key, is_Some (d !! key)) (edge_keys p).

(** The coordinates of the points of [ps], and the distinct ones. *)
Definition coords_of (verts : list Vector) (ps : list nat) : list Vector :=
  omap (λ id, verts !! id) ps.

Definition distinct_coords (verts : list Vector) (ps : list nat) : list Vector :=
  remove_dups (coords_of verts ps).

(** The heap in which the stitcher of [section], called on [h0], meets its
    next polygon after the polygons [done]. *)
Definition stitcher_heap (itM : Matrix) (h0 : Heap) (done : list MeshPolygon) : Heap :=
  (for_each stitch_polygon done (classify_edges itM (heap_of (h_mesh h0))).2).2.

(** ** Concrete inputs *)

Definition qz (n : Z) : Qc := Q2Qc (inject_Z n).
Definition vec (x y z : Z) : Vector := mkVector (qz x) (qz y) (qz z).

(** A triangle crossing the plane and a loose edge crossing it. *)
Definition tri_mesh : Mesh :=
  mkMesh [vec 0 0 1; vec 1 0 (-1); vec 0 1 (-1); vec 5 5 1; vec 5 5 (-1)]
         [mkEdge 0 1; mkEdge 1 2; mkEdge 2 0; mkEdge 3 4]
         [mkPolygon [0; 1; 2]].


(** A single loose edge crossing the plane, and no polygon. *)
Definition loose_edge_mesh : Mesh :=
  mkMesh [vec 0 0 1; vec 1 0 (-1)] [mkEdge 0 1] [].

(** A triangle with one vertex on the plane and the opposite edge crossing
    it. *)
Definition touching_mesh : Mesh :=
  mkMesh [vec 0 0 0; vec 2 0 1; vec 2 0 (-1)]
         [mkEdge 0 1; mkEdge 1 2; mkEdge 2 0]
         [mkPolygon [0; 1; 2]].

(** A mesh with the same edge listed twice. *)
Definition dup_edge_mesh : Mesh :=
  mkMesh [vec 0 0 1; vec 1 0 (-1)] [mkEdge 0 1; mkEdge 0 1] [].

(** An edge whose endpoints are both closer to the plane than [EPSILON],
    one on each side. *)
Definition near_mesh : Mesh :=
  mkMesh [mkVector (qz 0) (qz 0) (Q2Qc (1 # 2000000));
          mkVector (qz 2) (qz 0) (Q2Qc (-1 # 2000000))]
         [mkEdge 0 1] [].

(** ** The classifier as a function of the edge *)

(** The point the classifier records for an edge of the mesh [m], if any:
    the branches of the loop body, read without the buffers. *)
Definition edge_point (itM : Matrix) (m : Mesh) (ed : MeshEdge) : option Vector :=
  match m_vertices m !! ed_v0 ed, m_vertices m !! ed_v1 ed with
  | Some co0, Some co1 =>
      let p0 := mat_mul_vec itM co0 in
      let p1 := mat_mul_vec itM co1 in
      if sign_test p0 p1 then Some (crossing_point p0 p1)
      else if ltb (abs (vz p0)) EPSILON then Some p0
      else if ltb (abs (vz p1)) EPSILON then Some p1
      else None
  | _, _ => None
  end.

(** Every vertex of the mesh is, after the transform, at least [EPSILON]
    above the plane; or at least [EPSILON] below it. *)
Definition all_above (itM : Matrix) (m : Mesh) : Prop :=
  Forall (λ co, (EPSILON ≤ vz (mat_mul_vec itM co))%Qc) (m_vertices m).

Definition all_below (itM : Matrix) (m : Mesh) : Prop :=
  Forall (λ co, (vz (mat_mul_vec itM co) ≤ - EPSILON)%Qc) (m_vertices m).

(** What the buffers of [h'] hold for the edge [ed] when the classifier has
    run from [h0]: the key of an edge with a point leads to that point, and
    the key of an edge without one is as it was in [h0]. *)
Definition edge_recorded (itM : Matrix) (h0 h' : Heap) (ed : MeshEdge) : Prop :=
  match edge_point itM (h_mesh h0) ed with
  | Some q => ∃ i, h_ed_xsect h' !! ed_key ed = Some i ∧ h_verts h' !! i = Some q
  | None => h_ed_xsect h' !! ed_key ed = h_ed_xsect h0 !! ed_key ed
  end.

(** An edge with a vertex index outside [m.vertices]. *)
Definition dangling (m : Mesh) (ed : MeshEdge) : Prop :=
  ¬ (ed_v0 ed < length (m_vertices m) ∧ ed_v1 ed < length (m_vertices m)).

(** A mesh with an edge that names a vertex that does not exist. *)
Definition dangling_mesh : Mesh :=
  mkMesh [vec 0 0 1; vec 1 0 (-1)] [mkEdge 0 1; mkEdge 1 7] [mkPolygon [0; 1; 7]].

(** A triangle lying wholly above the plane. *)
Definition above_mesh : Mesh :=
  mkMesh [vec 0 0 1; vec 1 0 2; vec 0 1 3]
         [mkEdge 0 1; mkEdge 1 2; mkEdge 2 0]
         [mkPolygon [0; 1; 2]].

(** Every vertex of the mesh is, after the transform, at least [EPSILON]
    away from the plane. *)
Definition all_off_plane (itM : Matrix) (m : Mesh) : Prop :=
  Forall (λ co, (EPSILON ≤ abs (vz (mat_mul_vec itM co)))%Qc) (m_vertices m).

(** The two vertices named by a key exist and lie on different sides of the
    plane. *)
Definition key_crosses (itM : Matrix) (m : Mesh) (k : nat * nat) : Prop :=
  ∃ co0 co1,
    m_vertices m !! k.1 = Some co0 ∧ m_vertices m !! k.2 = Some co1 ∧
    gt0 (vz (mat_mul_vec itM co0)) ≠ gt0 (vz (mat_mul_vec itM co1)).

(** Every position of [verts] is stored under exactly one key of the
    mapping. *)
Definition one_key_per_vertex (h : Heap) : Prop :=
  ∀ i, i < length (h_verts h) →
    ∃ k, h_ed_xsect h !! k = Some i ∧
         ∀ k', h_ed_xsect h !! k' = Some i → k' = k.

(** ** The product of two transforms *)

(** The columns of a matrix. *)
Definition col0 (B : Matrix) : Row :=
  mkRow (r0 (row0 B)) (r0 (row1 B)) (r0 (row2 B)) (r0 (row3 B)).
Definition col1 (B : Matrix) : Row :=
  mkRow (r1 (row0 B)) (r1 (row1 B)) (r1 (row2 B)) (r1 (row3 B)).
Definition col2 (B : Matrix) : Row :=
  mkRow (r2 (row0 B)) (r2 (row1 B)) (r2 (row2 B)) (r2 (row3 B)).
Definition col3 (B : Matrix) : Row :=
  mkRow (r3 (row0 B)) (r3 (row1 B)) (r3 (row2 B)) (r3 (row3 B)).

Definition row_col (a b : Row) : Qc :=
  (r0 a * r0 b + r1 a * r1 b + r2 a * r2 b + r3 a * r3 b)%Qc.

Definition row_mul (a : Row) (B : Matrix) : Row :=
  mkRow (row_col a (col0 B)) (row_col a (col1 B)) (row_col a (col2 B)) (row_col a (col3 B)).

(** [A @ B] for two 4x4 matrices, as in [itM @ wM]. *)
Definition mat_mul (A B : Matrix) : Matrix :=
  mkMatrix (row_mul (row0 A) B) (row_mul (row1 A) B) (row_mul (row2 A) B) (row_mul (row3 A) B).

(** ** Objects and their instances *)

(** A Blender object, as far as the add-on reads it.  [ob_ptr] stands for
    the identity of the datablock, which is what [!=] compares; [to_mesh] is
    what [o.to_mesh()] hands out: a mesh, or [None] when the host has no
    geometry to give. *)
#[local] Unset Elimination Schemes.
Inductive Object := mkObject {
  ob_ptr : nat;
  ob_name : string;
  ob_type : string;
  is_instancer : bool;
  ob_children : list Object;
  matrix_world : Matrix;
  to_mesh : option Mesh
}.
#[local] Set Elimination Schemes.

Definition dupTest (object : Object) : bool :=
  if is_instancer object then true else false.

(** An element of the list that [getObjectsAndDuplis] returns: an object,
    or the tuple of an object and a matrix. *)
Inductive Item :=
  | ItemObject (o : Object)
  | ItemPair (o : Object) (matrix : Matrix).

Definition item_object (it : Item) : Object :=
  match it with
  | ItemObject o => o
  | ItemPair o _ => o
  end.

(** [if MATRICES: result.append((o, o.matrix_world)) else: result.append(o)] *)
Definition append_object (MATRICES : bool) (result : list Item) (o : Object)
    : list Item :=
  if MATRICES then result ++ [ItemPair o (matrix_world o)]
  else result ++ [ItemObject o].

(** [o.name[0:4] != "dpl_"] *)
Definition not_dpl (o : Object) : bool :=
  bool_decide (String.substring 0 4 (ob_name o) ≠ "dpl_"%string).

(** The body of [for o in oblist]. *)
Definition dupli_step (MATRICES HACK : bool) (result : list Item) (o : Object)
    : list Item :=
  if dupTest o then
    let dup_obs := ob_children o in
    if bool_decide (length dup_obs ≠ 0) then
      fold_left (append_object MATRICES) dup_obs result
    else result
  else
    if HACK then
      if not_dpl o then append_object MATRICES result o else result
    else append_object MATRICES result o.

Definition getObjectsAndDuplis (oblist : list Object) (MATRICES HACK : bool)
    : list Item :=
  fold_left (dupli_step MATRICES HACK) oblist [].

(** The element appended for the object [o]. *)
Definition to_item (MATRICES : bool) (o : Object) : Item :=
  if MATRICES then ItemPair o (matrix_world o) else ItemObject o.

(** What one object of [oblist] contributes to the result. *)
Definition expansion (HACK : bool) (o : Object) : list Object :=
  if is_instancer o then ob_children o
  else if HACK && negb (not_dpl o) then []
  else [o].

(** ** The operator *)

(** [OBJECT_OT_cross_section.poll] *)
Definition poll (active : option Object) (selected_objects : list Object) : bool :=
  match active with
  | Some _ => if bool_decide (1 < length selected_objects) then true else false
  | None => false
  end.

(** A section part: the object that [section] returned, with the
    [matrix_world] that [execute] gives it. *)
Record Part := mkPart {
  part_verts : list Vector;
  part_edges : list (list nat);
  part_fill : bool;
  part_matrix_world : Matrix
}.

Inductive Report := WARNING (message : string).

Inductive exec_exn :=
  | SectionRaised (e : exn)
  | AttributeError
  | TypeError
  | ValueError
  | UnboundLocalError.

Definition no_intersection_warning : Report :=
  WARNING "an object does not intersect the plane, continuing happily".

(** The objects that the loop of [execute] cuts. *)
Definition cut_candidate (act o : Object) : bool :=
  bool_decide (ob_ptr o ≠ ob_ptr act) &&
  (bool_decide (ob_type o = "MESH"%string) ||
   bool_decide (ob_type o = "SURFACE"%string) ||
   bool_decide (ob_type o = "CURVE"%string)).

(** The objects that [execute] cuts for the selection [sel]. *)
Definition candidates (act : Object) (sel : list Object) : list Object :=
  filter (λ o, cut_candidate act o = true) (sel ≫= expansion false).

(** An object that [section] can be run on: [to_mesh] gives a mesh, and
    the edges of that mesh refer to existing vertices. *)
Definition fit_to_cut (o : Object) : Prop :=
  match to_mesh o with
  | Some m => mesh_ok m
  | None => False
  end.

(** The body of [for o, wM in oblist]: [section] is entered with whatever
    [to_mesh] gave, and reading [m.edges] of [None] raises
    [AttributeError].  It works on the list of parts and the reports
    made so far. *)
Definition cut_item (act : Object) (tM itM : Matrix) (fill : bool)
    (st : list Part * list Report) (it : Item)
    : exec_exn * list Report + list Part * list Report :=
  let '(parts, reports) := st in
  match it with
  | ItemObject _ => inl (TypeError, reports)
  | ItemPair o wM =>
      if cut_candidate act o then
        match to_mesh o with
        | None => inl (AttributeError, reports)
        | Some m =>
            match (section (mat_mul itM wM) fill (heap_of m)).1 with
            | Raise e => inl (SectionRaised e, reports)
            | Ret (SectionObject verts edges FILL) =>
                inr (parts ++ [mkPart verts edges FILL tM], reports)
            | Ret NoSection => inr (parts, reports ++ [no_intersection_warning])
            end
        end
      else inr st
  end.

Fixpoint cut_items (act : Object) (tM itM : Matrix) (fill : bool)
    (oblist : list Item) (st : list Part * list Report)
    : exec_exn * list Report + list Part * list Report :=
  match oblist with
  | [] => inr st
  | it :: oblist' =>
      match cut_item act tM itM fill st it with
      | inl e => inl e
      | inr st' => cut_items act tM itM fill oblist' st'
      end
  end.

(** How [execute] ends: a bare [return], [{'FINISHED'}] with the parts put
    in the new collection, or an exception; each with the reports made. *)
Inductive ExecResult :=
  | ReturnedNone (reports : list Report)
  | FINISHED (parts : list Part) (reports : list Report)
  | Raised (e : exec_exn) (reports : list Report).

(** [OBJECT_OT_cross_section.execute].  [inverted] is the host's
    [Matrix.inverted], which raises [ValueError] on a matrix without
    inverse; [fill] is [context.scene.cross_section_fill].  The selection
    flags and the collections that [execute] updates are state of the host
    and are left out. *)
Definition execute (inverted : Matrix → option Matrix)
    (active : option Object) (selected_objects : list Object) (fill : bool)
    : ExecResult :=
  let sel := selected_objects in
  match active with
  | None => ReturnedNone [WARNING "No meshes or active object selected"]
  | Some act =>
      if bool_decide (ob_type act ≠ "MESH"%string) then
        ReturnedNone [WARNING "No meshes or active object selected"]
      else if bool_decide (2 ≤ length sel) then
        let tM := matrix_world act in
        match inverted tM with
        | None => Raised ValueError []
        | Some itM =>
            let oblist := getObjectsAndDuplis sel true false in
            match cut_items act tM itM fill oblist ([], []) with
            | inl (e, reports) => Raised e reports
            | inr (parts, reports) => FINISHED parts reports
            end
        end
      else
        Raised UnboundLocalError [WARNING "the selection is empty, no object to cut!"]
  end.

(** A scene: a cutting plane, a triangle across it, a triangle above it, an
    instancer with the first triangle as its child, and a lamp. *)
Definition plane_ob : Object :=
  mkObject 0 "Plane" "MESH" false [] identity_matrix
           (Some (mkMesh [vec 0 0 0; vec 1 0 0; vec 1 1 0; vec 0 1 0]
                         [mkEdge 0 1; mkEdge 1 2; mkEdge 2 3; mkEdge 3 0]
                         [mkPolygon [0; 1; 2; 3]])).

Definition tri_ob : Object :=
  mkObject 1 "Tri" "MESH" false [] identity_matrix (Some tri_mesh).

Definition above_ob : Object :=
  mkObject 2 "Above" "MESH" false [] identity_matrix (Some above_mesh).

Definition instancer_ob : Object :=
  mkObject 3 "Array" "EMPTY" true [tri_ob] identity_matrix None.

Definition lamp_ob : Object :=
  mkObject 4 "dpl_lamp" "LIGHT" false [] identity_matrix None.

(** A stand-in for the host's [Matrix.inverted] that knows the identity. *)
Definition inverted_identity (M : Matrix) : option Matrix := Some identity_matrix.

(** An object whose mesh has an edge that names a missing vertex. *)
Definition dangling_ob : Object :=
  mkObject 5 "Broken" "MESH" false [] identity_matrix (Some dangling_mesh).


(** ** The arithmetic of the vectors *)

(** Lines 136-152 in the arithmetic of the host: the coordinates of a
    [mathutils.Vector] are binary32 numbers, a coordinate read with [p.z] is
    a Python float (binary64), and every operation rounds to nearest even
    in its own format. *)
Module F32.

(** The conversion of a binary32 number to a Python float, which is exact,
    and the cast of a Python float to binary32, which rounds. *)
Definition to_double (x : spec_float) : spec_float :=
  match x with
  | S754_finite s m e => binary_normalize 53 1024 (cond_Zopp s (Zpos m)) e s
  | _ => x
  end.

Definition to_single (x : spec_float) : spec_float :=
  match x with
  | S754_finite s m e => binary_normalize 24 128 (cond_Zopp s (Zpos m)) e s
  | _ => x
  end.

(** The integer [n] in either format, and the binary32 number nearest to the
    quotient [n / d] of two small integers. *)
Definition single_of_Z (n : Z) : spec_float := binary_normalize 24 128 n 0 false.
Definition double_of_Z (n : Z) : spec_float := binary_normalize 53 1024 n 0 false.

(** [EPSILON = 0.000001]: the Python float nearest to 1/1000000. *)
Definition EPSILON : spec_float :=
  SFdiv 53 1024 (double_of_Z 1) (double_of_Z 1000000).

(** A 3D [mathutils.Vector]. *)
Record Vector := mkVector { vx : spec_float; vy : spec_float; vz : spec_float }.

Definition vadd (a b : Vector) : Vector :=
  mkVector (SFadd 24 128 (vx a) (vx b)) (SFadd 24 128 (vy a) (vy b))
           (SFadd 24 128 (vz a) (vz b)).

Definition vsub (a b : Vector) : Vector :=
  mkVector (SFsub 24 128 (vx a) (vx b)) (SFsub 24 128 (vy a) (vy b))
           (SFsub 24 128 (vz a) (vz b)).

(** [a * t] for a Python float [t], which the host casts to binary32. *)
Definition vscale (a : Vector) (t : spec_float) : Vector :=
  let t32 := to_single t in
  mkVector (SFmul 24 128 (vx a) t32) (SFmul 24 128 (vy a) t32)
           (SFmul 24 128 (vz a) t32).

(** [p.z] *)
Definition z (p : Vector) : spec_float := to_double (vz p).

(** [a > 0] and [a < 0] *)
Definition gt0 (a : spec_float) : bool := SFltb (S754_zero false) a.

(** [a / b] on Python floats raises on a zero divisor. *)
Definition py_div (a b : spec_float) : outcome spec_float :=
  match b with
  | S754_zero _ => Raise ZeroDivisionError
  | _ => Ret (SFdiv 53 1024 a b)
  end.

(** [p0 + (p1 - p0) * t] *)
Definition interpolate (p0 p1 : Vector) (t : spec_float) : Vector :=
  vadd p0 (vscale (vsub p1 p0) t).

(** The branches of the loop body on the transformed endpoints [p0] and
    [p1]: the point that is recorded, if any. *)
Definition classify (p0 p1 : Vector) : outcome (option Vector) :=
  let d0 := SFabs (z p0) in
  let d1 := SFabs (z p1) in
  if negb (eqb (gt0 (z p0)) (gt0 (z p1))) then
    match py_div d0 (SFadd 53 1024 d0 d1) with
    | Ret t => Ret (Some (interpolate p0 p1 t))
    | Raise e => Raise e
    end
  else if SFltb d0 EPSILON then Ret (Some p0)
  else if SFltb d1 EPSILON then Ret (Some p1)
  else Ret None.


(** The vector with the integer coordinates [x], [y], [z]. *)
Definition vec (x y z : Z) : Vector :=
  mkVector (single_of_Z x) (single_of_Z y) (single_of_Z z).

End F32.



(** * Properties *)

(** Closed goals are settled by running their decision procedure. *)
Ltac by_compute := apply (bool_decide_unpack _); vm_compute; exact I.

(** ** The monad *)

Lemma bind_run {A B} (c : M A) (k : A → M B) h :
  (c ≫= k) h =
  match c h with
  | (Ret a, h') => k a h'
  | (Raise e, h') => (Raise e, h')
  end.
Proof. reflexivity. Qed.

Lemma preserves_ret {A} I (a : A) : preserves I (mret a).
Proof. intros h Hh. exact Hh. Qed.

Lemma preserves_raise {A} I e : preserves I (raise (A:=A) e).
Proof. intros h Hh. exact Hh. Qed.

Lemma preserves_bind {A B} I (c : M A) (k : A → M B) :
  preserves I c → (∀ a, preserves I (k a)) → preserves I (c ≫= k).
Proof.
  intros Hc Hk h Hh. rewrite bind_run.
  specialize (Hc h Hh). destruct (c h) as [[a|e] h']; simpl in *.
  - by apply Hk.
  - done.
Qed.

Lemma preserves_for_each {A} I (body : A → M unit) l :
  (∀ x, x ∈ l → preserves I (body x)) → preserves I (for_each body l).
Proof.
  induction l as [|x l IH]; intros Hbody; simpl.
  - apply preserves_ret.
  - apply preserves_bind.
    + apply Hbody. left.
    + intros _. apply IH. intros y Hy. apply Hbody. by right.
Qed.

Lemma for_each_app {A} (body : A → M unit) l1 l2 h :
  for_each body (l1 ++ l2) h = (for_each body l1;; for_each body l2) h.
Proof.
  revert h. induction l1 as [|x l1 IH]; intros h; simpl.
  - reflexivity.
  - rewrite !bind_run. destruct (body x h) as [[[]|e] h']; [|done].
    rewrite IH. by rewrite bind_run.
Qed.

(** ** Arithmetic of the classifier *)

Section arithmetic.
Local Open Scope Qc_scope.

Lemma abs_pos a : 0 < a → abs a = a.
Proof.
  intros Ha. unfold abs. case_bool_decide as Hn; [|done].
  destruct (Qclt_not_le _ _ Ha). by apply Qclt_le_weak.
Qed.

Lemma abs_nonpos a : ¬ 0 < a → abs a = - a.
Proof.
  intros Ha. unfold abs. case_bool_decide as Hn; [done|].
  apply Qcnot_lt_le in Ha, Hn.
  assert (a = 0) as -> by by apply Qcle_antisym.
  apply Qc_is_canon. reflexivity.
Qed.

Lemma abs_nonneg a : 0 ≤ abs a.
Proof.
  unfold abs. case_bool_decide as Hn.
  - apply Qclt_le_weak, Qcopp_le_compat in Hn. exact Hn.
  - by apply Qcnot_lt_le.
Qed.


Lemma sign_test_cases p0 p1 :
  sign_test p0 p1 = true →
  (0 < vz p0 ∧ ¬ 0 < vz p1) ∨ (¬ 0 < vz p0 ∧ 0 < vz p1).
Proof.
  unfold sign_test, gt0. intros H.
  do 2 case_bool_decide; simpl in H; try done; auto.
Qed.

Lemma crossing_denominator p0 p1 :
  sign_test p0 p1 = true → abs (vz p0) + abs (vz p1) ≠ 0.
Proof.
  intros [[H0 H1]|[H0 H1]]%sign_test_cases; apply not_eq_sym, Qclt_not_eq.
  - apply Qcplus_pos_nonneg; [by rewrite abs_pos|apply abs_nonneg].
  - apply Qcplus_nonneg_pos; [apply abs_nonneg|by rewrite abs_pos].
Qed.

Lemma EPSILON_pos : 0 < EPSILON.
Proof. reflexivity. Qed.

Lemma record_point_run key co h :
  record_point key co h = (Ret (), with_point key co h).
Proof. reflexivity. Qed.

End arithmetic.

(** ** One step of the classifier *)

Lemma classify_edge_branches itM ed h co0 co1 :
  m_vertices (h_mesh h) !! ed_v0 ed = Some co0 →
  m_vertices (h_mesh h) !! ed_v1 ed = Some co1 →
  classify_edge itM ed h =
    let p0 := mat_mul_vec itM co0 in
    let p1 := mat_mul_vec itM co1 in
    if sign_test p0 p1 then
      (Ret (), with_point (ed_key ed) (crossing_point p0 p1) h)
    else if ltb (abs (vz p0)) EPSILON then
      (Ret (), with_point (ed_key ed) p0 h)
    else if ltb (abs (vz p1)) EPSILON then
      (Ret (), with_point (ed_key ed) p1 h)
    else (Ret (), h).
Proof.
  intros Hco0 Hco1. unfold classify_edge. rewrite bind_run. unfold get_vertex_co at 1.
  rewrite Hco0. rewrite bind_run. unfold get_vertex_co at 1. rewrite Hco1.
  cbv zeta. generalize (mat_mul_vec itM co0) (mat_mul_vec itM co1). intros p0 p1.
  fold (sign_test p0 p1).
  destruct (sign_test p0 p1) eqn:Hs.
  - rewrite bind_run. unfold py_div.
    rewrite bool_decide_eq_false_2 by by apply crossing_denominator.
    reflexivity.
  - repeat case_match; reflexivity.
Qed.

Lemma classify_edge_cases itM ed h :
  (classify_edge itM ed h).2 = h ∨
  ∃ co, classify_edge itM ed h = (Ret (), with_point (ed_key ed) co h).
Proof.
  destruct (m_vertices (h_mesh h) !! ed_v0 ed) as [co0|] eqn:H0; last first.
  { left. unfold classify_edge. rewrite bind_run. unfold get_vertex_co. by rewrite H0. }
  destruct (m_vertices (h_mesh h) !! ed_v1 ed) as [co1|] eqn:H1; last first.
  { left. unfold classify_edge. rewrite bind_run. unfold get_vertex_co at 1. rewrite H0.
    rewrite bind_run. unfold get_vertex_co. by rewrite H1. }
  rewrite (classify_edge_branches _ _ _ _ _ H0 H1). cbv zeta.
  repeat case_match; eauto.
Qed.







(** ** Rounding in the arithmetic of the vectors *)

(** Rounding a non-zero number whose exponent is not below [emin] never
    gives zero, and never an exponent below [emin]; so the sum of two
    positive numbers is not zero. *)
Section rounding.
Local Open Scope Z_scope.
Context (prec emax : Z) (Hprec : 1 ≤ prec).

Lemma iter_pos_nat {A} (f : A → A) p x :
  SpecFloat.iter_pos f p x = Nat.iter (Pos.to_nat p) f x.
Proof.
  revert x. induction p as [p IH|p IH|]; intros x.
  - change (SpecFloat.iter_pos f p~1 x)
      with (SpecFloat.iter_pos f p (SpecFloat.iter_pos f p (f x))).
    rewrite !IH, Pos2Nat.inj_xI.
    replace (S (2 * Pos.to_nat p))%nat with (Pos.to_nat p + S (Pos.to_nat p))%nat by lia.
    rewrite Nat.iter_add. f_equal. by rewrite Nat.iter_succ_r.
  - change (SpecFloat.iter_pos f p~0 x)
      with (SpecFloat.iter_pos f p (SpecFloat.iter_pos f p x)).
    rewrite !IH, Pos2Nat.inj_xO.
    replace (2 * Pos.to_nat p)%nat with (Pos.to_nat p + Pos.to_nat p)%nat by lia.
    by rewrite Nat.iter_add.
  - done.
Qed.

Lemma shr_1_half mrs : 0 ≤ shr_m mrs → shr_m (shr_1 mrs) = shr_m mrs / 2.
Proof.
  destruct mrs as [m r s]. cbn [shr_m]. intros Hm.
  destruct m as [|[p|p|]|p]; cbn [shr_1 shr_m]; try lia.
  - reflexivity.
  - apply Z.div_unique with 1; lia.
  - apply Z.div_unique with 0; lia.
  - reflexivity.
Qed.

Lemma shr_iter_half n mrs :
  0 ≤ shr_m mrs → shr_m (Nat.iter n shr_1 mrs) = shr_m mrs / 2 ^ Z.of_nat n.
Proof.
  intros Hm. induction n as [|n IH].
  - simpl. by rewrite Z.div_1_r.
  - rewrite Nat2Z.inj_succ, Z.pow_succ_r by lia. simpl.
    rewrite shr_1_half; rewrite IH.
    + rewrite Z.div_div by lia. f_equal. lia.
    + apply Z.div_pos; lia.
Qed.

Lemma digits2_pos_lower m : 2 ^ (Zpos (digits2_pos m) - 1) ≤ Zpos m.
Proof.
  induction m as [m IH|m IH|]; simpl digits2_pos.
  - rewrite Pos2Z.inj_succ. replace (Z.succ (Zpos (digits2_pos m)) - 1)
      with (Z.succ (Zpos (digits2_pos m) - 1)) by lia.
    rewrite Z.pow_succ_r by lia. lia.
  - rewrite Pos2Z.inj_succ. replace (Z.succ (Zpos (digits2_pos m)) - 1)
      with (Z.succ (Zpos (digits2_pos m) - 1)) by lia.
    rewrite Z.pow_succ_r by lia. lia.
  - simpl. lia.
Qed.

Lemma shr_record_of_loc_m m l : shr_m (shr_record_of_loc m l) = m.
Proof. by destruct l as [|[]]. Qed.

Lemma shr_fexp_positive m e l :
  emin prec emax ≤ e →
  0 < shr_m (shr_fexp prec emax (Zpos m) e l).1 ∧
  emin prec emax ≤ (shr_fexp prec emax (Zpos m) e l).2.
Proof.
  intros He. unfold shr_fexp, shr, fexp. simpl Zdigits2.
  pose proof (digits2_pos_lower m) as Hd.
  set (d := Zpos (digits2_pos m)) in *.
  destruct (Z.max (d + e - prec) (emin prec emax) - e) as [|p|p] eqn:Hn; simpl.
  - rewrite shr_record_of_loc_m. lia.
  - rewrite iter_pos_nat, shr_iter_half by (rewrite shr_record_of_loc_m; lia).
    rewrite shr_record_of_loc_m, positive_nat_Z. split; [|lia].
    apply Z.div_str_pos. split; [apply Z.pow_pos_nonneg; lia|].
    etrans; [|exact Hd]. apply Z.pow_le_mono_r; lia.
  - rewrite shr_record_of_loc_m. lia.
Qed.

Lemma round_nearest_even_positive m l : 0 < m → 0 < round_nearest_even m l.
Proof. intros Hm. destruct l as [|[]]; simpl; try lia. destruct (Z.even m); lia. Qed.

Lemma binary_round_aux_not_zero s m e l s' :
  emin prec emax ≤ e → binary_round_aux prec emax s (Zpos m) e l ≠ S754_zero s'.
Proof.
  intros He. unfold binary_round_aux.
  destruct (shr_fexp_positive m e l He) as [Hm1 He1].
  destruct (shr_fexp prec emax (Zpos m) e l) as [mrs' e']. simpl in Hm1, He1.
  pose proof (round_nearest_even_positive _ (loc_of_shr_record mrs') Hm1) as Hm2.
  destruct (round_nearest_even (shr_m mrs') (loc_of_shr_record mrs')) as [|m2|m2];
    [lia| |lia].
  destruct (shr_fexp_positive m2 e' loc_Exact He1) as [Hm3 He3].
  destruct (shr_fexp prec emax (Zpos m2) e' loc_Exact) as [mrs'' e'']. simpl in Hm3.
  destruct (shr_m mrs'') as [|m3|m3]; [lia| |lia].
  by destruct (e'' <=? emax - prec).
Qed.

Lemma binary_round_not_zero s m e s' :
  emin prec emax ≤ e → binary_round prec emax s m e ≠ S754_zero s'.
Proof.
  intros He. unfold binary_round, shl_align.
  destruct (fexp prec emax (Zpos (digits2_pos m) + e) - e) as [|d|d] eqn:Hd.
  - by apply binary_round_aux_not_zero.
  - by apply binary_round_aux_not_zero.
  - apply binary_round_aux_not_zero. unfold fexp. lia.
Qed.

Lemma binary_round_exponent s m e :
  emin prec emax ≤ e →
  match binary_round prec emax s m e with
  | S754_finite _ _ e' => emin prec emax ≤ e'
  | _ => True
  end.
Proof.
  intros He.
  assert (∀ m' e', emin prec emax ≤ e' →
            match binary_round_aux prec emax s (Zpos m') e' loc_Exact with
            | S754_finite _ _ e'' => emin prec emax ≤ e''
            | _ => True
            end) as Haux.
  { intros m' e' He'. unfold binary_round_aux.
    destruct (shr_fexp_positive m' e' loc_Exact He') as [Hm1 He1].
    destruct (shr_fexp prec emax (Zpos m') e' loc_Exact) as [mrs1 e1]. simpl in Hm1, He1.
    pose proof (round_nearest_even_positive _ (loc_of_shr_record mrs1) Hm1) as Hm2.
    destruct (round_nearest_even (shr_m mrs1) (loc_of_shr_record mrs1)) as [|m2|m2];
      [lia| |lia].
    destruct (shr_fexp_positive m2 e1 loc_Exact He1) as [Hm3 He3].
    destruct (shr_fexp prec emax (Zpos m2) e1 loc_Exact) as [mrs2 e2]. simpl in Hm3, He3.
    destruct (shr_m mrs2) as [|m3|m3]; [done| |done].
    by destruct (e2 <=? emax - prec). }
  unfold binary_round, shl_align.
  destruct (fexp prec emax (Zpos (digits2_pos m) + e) - e) as [|d|d] eqn:Hd.
  - by apply Haux.
  - by apply Haux.
  - apply Haux. unfold fexp. lia.
Qed.

Lemma valid_exponent s m e :
  valid_binary prec emax (S754_finite s m e) = true → emin prec emax ≤ e.
Proof.
  simpl. unfold bounded, canonical_mantissa, fexp.
  intros [Hc _]%andb_prop. apply Z.eqb_eq in Hc. lia.
Qed.

Lemma SFadd_positive_not_zero m0 e0 m1 e1 s' :
  emin prec emax ≤ e0 → emin prec emax ≤ e1 →
  SFadd prec emax (S754_finite false m0 e0) (S754_finite false m1 e1) ≠ S754_zero s'.
Proof.
  intros H0 H1. unfold SFadd. cbv zeta. simpl cond_Zopp.
  rewrite <-Pos2Z.inj_add. simpl binary_normalize.
  apply binary_round_not_zero. lia.
Qed.

End rounding.

Lemma F32_z_exponent p :
  valid_binary 24 128 (F32.vz p) = true →
  match F32.z p with
  | S754_finite _ _ e => (emin 53 1024 ≤ e)%Z
  | _ => True
  end.
Proof.
  unfold F32.z, F32.to_double. destruct (F32.vz p) as [| | |s m e]; [done..|].
  intros Hv%valid_exponent. unfold emin in Hv.
  destruct s; simpl; apply binary_round_exponent; unfold emin; lia.
Qed.

Lemma F32_divisor_not_zero a b s :
  match a with S754_finite _ _ e => (emin 53 1024 ≤ e)%Z | _ => True end →
  match b with S754_finite _ _ e => (emin 53 1024 ≤ e)%Z | _ => True end →
  F32.gt0 a ≠ F32.gt0 b →
  SFadd 53 1024 (SFabs a) (SFabs b) ≠ S754_zero s.
Proof.
  intros Ha Hb Hsign.
  destruct a as [sa|sa| |sa ma ea], b as [sb|sb| |sb mb eb];
    try done; try (by destruct sa); try (by destruct sb).
  cbn [SFabs]. apply SFadd_positive_not_zero; done.
Qed.

(** The amended C1 and the third part of the amended C2 in the arithmetic
    of the vectors: when the coordinates are well-formed binary32 numbers
    and the sign test holds, the divisor [d0 + d1] is not zero and the point
    recorded is the interpolated one. *)
Lemma F32_sign_test_branch p0 p1 :
  valid_binary 24 128 (F32.vz p0) = true →
  valid_binary 24 128 (F32.vz p1) = true →
  F32.gt0 (F32.z p0) ≠ F32.gt0 (F32.z p1) →
  let d0 := SFabs (F32.z p0) in
  let d1 := SFabs (F32.z p1) in
  F32.classify p0 p1 =
    Ret (Some (F32.interpolate p0 p1 (SFdiv 53 1024 d0 (SFadd 53 1024 d0 d1)))).
Proof.
  intros Hv0 Hv1 Hsign d0 d1. unfold F32.classify. fold d0 d1.
  assert (negb (eqb (F32.gt0 (F32.z p0)) (F32.gt0 (F32.z p1))) = true) as ->.
  { by destruct (F32.gt0 (F32.z p0)), (F32.gt0 (F32.z p1)). }
  pose proof (F32_divisor_not_zero (F32.z p0) (F32.z p1)) as Hnz.
  fold d0 d1 in Hnz. unfold F32.py_div.
  destruct (SFadd 53 1024 d0 d1) as [s| | |] eqn:Hsum; [|done..].
  destruct (Hnz s); [by apply F32_z_exponent..|done|done].
Qed.

(** The first two parts of the amended C2 in the arithmetic of the vectors:
    an endpoint on the plane is recorded as it is when the other endpoint is
    not above the plane. *)
Lemma F32_on_plane_endpoint p0 p1 s :
  (F32.vz p0 = S754_zero s → F32.gt0 (F32.z p1) = false →
   F32.classify p0 p1 = Ret (Some p0)) ∧
  (F32.vz p1 = S754_zero s → F32.gt0 (F32.z p0) = false →
   SFltb (SFabs (F32.z p0)) F32.EPSILON = false →
   F32.classify p0 p1 = Ret (Some p1)).
Proof.
  split.
  - intros Hz Hgt. unfold F32.classify. rewrite Hgt. unfold F32.z. rewrite Hz.
    by destruct s.
  - intros Hz Hgt Hfar. unfold F32.classify. rewrite Hgt, Hfar.
    unfold F32.z. rewrite Hz. by destruct s.
Qed.

(** C3, as amended: an edge whose transformed endpoints are both closer to
    the plane than [EPSILON] makes the classifier record exactly one point;
    when the sign test is false that point is [p0] (the [d0 < EPSILON]
    branch), and when the sign test is true it is the interpolated point of
    the first branch. *)
Theorem C3_coplanar_edge itM ed h co0 co1 :
  m_vertices (h_mesh h) !! ed_v0 ed = Some co0 →
  m_vertices (h_mesh h) !! ed_v1 ed = Some co1 →
  let p0 := mat_mul_vec itM co0 in
  let p1 := mat_mul_vec itM co1 in
  (abs (vz p0) < EPSILON)%Qc →
  (abs (vz p1) < EPSILON)%Qc →
  let q := if sign_test p0 p1 then crossing_point p0 p1 else p0 in
  classify_edge itM ed h = (Ret (), with_point (ed_key ed) q h) ∧
  h_verts (classify_edge itM ed h).2 = h_verts h ++ [q].
Proof.
  intros Hco0 Hco1 p0 p1 Hz0 Hz1 q.
  cut (classify_edge itM ed h = (Ret (), with_point (ed_key ed) q h)).
  { intros ->. done. }
  rewrite (classify_edge_branches _ _ _ _ _ Hco0 Hco1). cbv zeta.
  fold p0 p1. subst q. destruct (sign_test p0 p1); [done|].
  unfold ltb. by rewrite bool_decide_eq_true_2.
Qed.

Lemma C3_coplanar_edge_witness :
  h_verts (classify_edge identity_matrix (mkEdge 0 1)
             (heap_of (mkMesh [vec 3 4 0; vec 1 2 0] [mkEdge 0 1] []))).2
  = [vec 3 4 0].
Proof.
  destruct (C3_coplanar_edge identity_matrix (mkEdge 0 1)
              (heap_of (mkMesh [vec 3 4 0; vec 1 2 0] [mkEdge 0 1] []))
              (vec 3 4 0) (vec 1 2 0)) as [_ Hv].
  - reflexivity.
  - reflexivity.
  - by vm_compute.
  - by vm_compute.
  - rewrite Hv. by_compute.
Defined.

(** C3 as stated fails: both endpoints of the edge of [near_mesh] are closer
    to the plane than [EPSILON], yet the sign test is true and the recorded
    point is the midpoint (1, 0, 0), not [p0]. *)
Lemma C3_counterexample :
  let h := heap_of near_mesh in
  let p0 := mat_mul_vec identity_matrix (mkVector (qz 0) (qz 0) (Q2Qc (1 # 2000000))) in
  let p1 := mat_mul_vec identity_matrix (mkVector (qz 2) (qz 0) (Q2Qc (-1 # 2000000))) in
  m_vertices (h_mesh h) !! 0 = Some (mkVector (qz 0) (qz 0) (Q2Qc (1 # 2000000))) ∧
  m_vertices (h_mesh h) !! 1 = Some (mkVector (qz 2) (qz 0) (Q2Qc (-1 # 2000000))) ∧
  (abs (vz p0) < EPSILON)%Qc ∧
  (abs (vz p1) < EPSILON)%Qc ∧
  sign_test p0 p1 = true ∧
  h_verts (classify_edge identity_matrix (mkEdge 0 1) h).2 = [vec 1 0 0] ∧
  vec 1 0 0 ≠ p0.
Proof.
  split_and!; try reflexivity.
  - by_compute.
  - by_compute.
Qed.
(** ** The classifier loop *)

Lemma classify_edge_verts itM ed h :
  h_verts (classify_edge itM ed h).2 = h_verts h ∨
  ∃ co, h_verts (classify_edge itM ed h).2 = h_verts h ++ [co].
Proof.
  destruct (classify_edge_cases itM ed h) as [->|[co ->]]; [by left|right].
  by exists co.
Qed.

Lemma classify_edge_other_key itM ed h k :
  k ≠ ed_key ed →
  h_ed_xsect (classify_edge itM ed h).2 !! k = h_ed_xsect h !! k.
Proof.
  intros Hk. destruct (classify_edge_cases itM ed h) as [->|[co ->]]; [done|].
  simpl. by rewrite lookup_insert_ne.
Qed.

Lemma classify_loop_other_key itM es h k :
  k ∉ ed_key <$> es →
  h_ed_xsect (for_each (classify_edge itM) es h).2 !! k = h_ed_xsect h !! k.
Proof.
  revert h. induction es as [|ed es IH]; intros h Hk; [done|].
  rewrite fmap_cons, not_elem_of_cons in Hk. destruct Hk as [Hne Hk].
  simpl. rewrite bind_run.
  pose proof (classify_edge_other_key itM ed h k Hne) as Hstep.
  destruct (classify_edge itM ed h) as [[[]|e] h1]; simpl in *; [|done].
  by rewrite IH.
Qed.

Lemma classify_loop_dom itM es h k :
  is_Some (h_ed_xsect (for_each (classify_edge itM) es h).2 !! k) →
  is_Some (h_ed_xsect h !! k) ∨ k ∈ ed_key <$> es.
Proof.
  intros Hk. destruct (decide (k ∈ ed_key <$> es)) as [|Hnot]; [by right|left].
  by rewrite classify_loop_other_key in Hk.
Qed.

Lemma classify_loop_length itM es h :
  length (h_verts (for_each (classify_edge itM) es h).2) ≤ length (h_verts h) + length es.
Proof.
  revert h. induction es as [|ed es IH]; intros h; simpl; [lia|].
  rewrite bind_run.
  pose proof (classify_edge_verts itM ed h) as Hstep.
  destruct (classify_edge itM ed h) as [[[]|e] h1]; simpl in *.
  - specialize (IH h1). destruct Hstep as [Hv|[co Hv]]; rewrite Hv in IH;
      [|rewrite length_app in IH; simpl in IH]; lia.
  - destruct Hstep as [->|[co ->]]; [|rewrite length_app; simpl]; lia.
Qed.

(** C4, as amended: when the keys of the edge list are pairwise distinct, an
    entry of the mapping written while classifying a prefix of the list is
    still there, unchanged, after the whole list; each processed edge appends
    at most one vertex, so the loop appends at most one vertex per edge. *)
Theorem C4_stored_once itM es1 es2 h :
  h_ed_xsect h = ∅ →
  NoDup (ed_key <$> es1 ++ es2) →
  let h1 := (for_each (classify_edge itM) es1 h).2 in
  let h2 := (for_each (classify_edge itM) (es1 ++ es2) h).2 in
  (∀ k i, h_ed_xsect h1 !! k = Some i → h_ed_xsect h2 !! k = Some i) ∧
  (∀ ed h', h_verts (classify_edge itM ed h').2 = h_verts h' ∨
            ∃ co, h_verts (classify_edge itM ed h').2 = h_verts h' ++ [co]) ∧
  length (h_verts h2) ≤ length (h_verts h) + length (es1 ++ es2).
Proof.
  intros Hempty Hnodup h1 h2. split_and!.
  - intros k i Hk. subst h1 h2. rewrite for_each_app, bind_run.
    destruct (for_each (classify_edge itM) es1 h) as [[[]|e] h1] eqn:Hrun; [|done].
    simpl in *. rewrite classify_loop_other_key; [done|].
    rewrite fmap_app in Hnodup. apply NoDup_app in Hnodup as (_ & Hdisj & _).
    intros Hin. apply (Hdisj k); [|done].
    assert (is_Some (h_ed_xsect h1 !! k)) as Hsome by eauto.
    replace h1 with (for_each (classify_edge itM) es1 h).2 in Hsome by by rewrite Hrun.
    apply classify_loop_dom in Hsome as [Hsome|]; [|done].
    rewrite Hempty, lookup_empty in Hsome. by destruct Hsome.
  - intros ed h'. apply classify_edge_verts.
  - apply classify_loop_length.
Qed.

Lemma C4_stored_once_witness :
  h_ed_xsect (for_each (classify_edge identity_matrix) (m_edges tri_mesh)
                (heap_of tri_mesh)).2 !! (0, 1) = Some 0.
Proof.
  destruct (C4_stored_once identity_matrix [mkEdge 0 1] [mkEdge 1 2; mkEdge 2 0; mkEdge 3 4]
              (heap_of tri_mesh)) as (Hkeep & _).
  - reflexivity.
  - by_compute.
  - apply Hkeep. by_compute.
Defined.

(** C4 as stated fails for an edge list that repeats a key: in
    [dup_edge_mesh] the entry written for the first edge, index 0, is
    overwritten with index 1 by the second. *)
Lemma C4_counterexample :
  let itM := identity_matrix in
  let h := heap_of dup_edge_mesh in
  let h1 := (for_each (classify_edge itM) [mkEdge 0 1] h).2 in
  let h2 := (for_each (classify_edge itM) ([mkEdge 0 1] ++ [mkEdge 0 1]) h).2 in
  h_ed_xsect h = ∅ ∧
  h_ed_xsect h1 !! (0, 1) = Some 0 ∧
  h_ed_xsect h2 !! (0, 1) = Some 1 ∧
  length (h_verts h2) = 2.
Proof. split_and!; [reflexivity|by_compute..]. Qed.
(** ** Invariants of the buffers *)

Lemma xsect_bounded_with_point key co h :
  xsect_bounded h → xsect_bounded (with_point key co h).
Proof.
  unfold xsect_bounded. intros Hb. simpl. rewrite length_app. simpl.
  apply map_Forall_insert_2; [lia|].
  eapply map_Forall_impl; [exact Hb|]. simpl. intros. lia.
Qed.

Lemma edges_bounded_with_point key co h :
  edges_bounded h → edges_bounded (with_point key co h).
Proof.
  unfold edges_bounded. simpl. intros Hb. eapply Forall_impl; [exact Hb|].
  simpl. intros e [Hlen He].
  split; [done|]. eapply Forall_impl; [exact He|].
  simpl. intros i Hi. rewrite length_app. lia.
Qed.

Lemma edges_bounded_with_edge e h :
  length e = 2 → Forall (λ i, i < length (h_verts h)) e →
  edges_bounded h → edges_bounded (with_edge e h).
Proof.
  unfold edges_bounded. simpl. intros Hlen He Hb.
  apply Forall_app. split; [done|]. by apply Forall_singleton.
Qed.

Lemma classify_edge_bounded itM ed :
  preserves (λ h, xsect_bounded h ∧ edges_bounded h) (classify_edge itM ed).
Proof.
  intros h [Hx He]. destruct (classify_edge_cases itM ed h) as [->|[co ->]]; [done|].
  split; [by apply xsect_bounded_with_point|by apply edges_bounded_with_point].
Qed.

Lemma classify_edge_frame itM ed m :
  preserves (λ h, h_mesh h = m) (classify_edge itM ed).
Proof.
  intros h Hm. by destruct (classify_edge_cases itM ed h) as [->|[co ->]].
Qed.

(** ** The dict built by the stitcher *)

Lemma mapped_indices_bounded h keys :
  xsect_bounded h →
  Forall (λ i, i < length (h_verts h)) (mapped_indices (h_ed_xsect h) keys).
Proof.
  intros Hb. apply Forall_forall. intros i Hi.
  apply list_elem_of_omap in Hi as (k & _ & Hk). by apply (Hb k).
Qed.

Lemma mapped_indices_present d keys :
  mapped_indices d keys = omap (λ key, d !! key) (filter (λ key, is_Some (d !! key)) keys).
Proof.
  unfold mapped_indices. induction keys as [|k keys IH]; [done|].
  rewrite filter_cons. simpl. destruct (d !! k) as [i|] eqn:Hk.
  - rewrite decide_True by eauto. simpl. rewrite Hk. by f_equal.
  - rewrite decide_False; [done|]. by intros [? ?].
Qed.

Section dict.
Context {K V : Type} `{EqDecision K}.
Implicit Types (d : list (K * V)) (k : K) (v : V).

Lemma dict_setitem_keys d k v :
  ∀ k', k' ∈ (dict_setitem d k v).*1 ↔ k' = k ∨ k' ∈ d.*1.
Proof.
  induction d as [|[k0 v0] d IH]; intros k'; simpl.
  - rewrite list_elem_of_singleton, elem_of_nil. tauto.
  - case_decide as Hk; simpl.
    + subst. rewrite !elem_of_cons. tauto.
    + rewrite !elem_of_cons, IH. tauto.
Qed.

Lemma dict_setitem_NoDup d k v :
  NoDup d.*1 → NoDup (dict_setitem d k v).*1.
Proof.
  induction d as [|[k0 v0] d IH]; simpl; intros Hd.
  - apply NoDup_singleton.
  - apply NoDup_cons in Hd as [Hk0 Hd]. case_decide as Hk; simpl.
    + by apply NoDup_cons.
    + apply NoDup_cons. split; [|by apply IH].
      rewrite dict_setitem_keys. intros [->|?]; done.
Qed.

Lemma dict_setitem_entries d k v :
  ∀ k' v', (k', v') ∈ dict_setitem d k v → (k' = k ∧ v' = v) ∨ (k', v') ∈ d.
Proof.
  induction d as [|[k0 v0] d IH]; intros k' v'; simpl.
  - rewrite list_elem_of_singleton. intros [= -> ->]. by left.
  - case_decide as Hk; rewrite !elem_of_cons.
    + intros [[= -> ->]|Hin]; [by left|by right; right].
    + intros [[= -> ->]|Hin]; [by right; left|].
      apply IH in Hin as [?|?]; [by left|by right; right].
Qed.

End dict.

Lemma coords_of_cons verts id ps co :
  verts !! id = Some co → coords_of verts (id :: ps) = co :: coords_of verts ps.
Proof. intros Hid. unfold coords_of. simpl. by rewrite Hid. Qed.

Lemma unique_from_spec verts ps d u :
  unique_from verts ps d = Some u →
  (NoDup d.*1 → NoDup u.*1) ∧
  (∀ c, c ∈ u.*1 ↔ c ∈ d.*1 ∨ c ∈ coords_of verts ps) ∧
  (∀ c i, (c, i) ∈ u → (c, i) ∈ d ∨ (i ∈ ps ∧ verts !! i = Some c)).
Proof.
  revert d. induction ps as [|id ps IH]; intros d Hu; simpl in Hu.
  - injection Hu as ->. split_and!; [done| |by left].
    intros c. unfold coords_of. simpl. rewrite elem_of_nil. tauto.
  - destruct (verts !! id) as [co|] eqn:Hid; [|done].
    apply IH in Hu as (Hnd & Hkeys & Hent). split_and!.
    + intros Hd. by apply Hnd, dict_setitem_NoDup.
    + intros c. rewrite Hkeys, dict_setitem_keys, (coords_of_cons _ _ _ _ Hid).
      rewrite elem_of_cons. tauto.
    + intros c i [Hin|[Hin Hc]]%Hent.
      * apply dict_setitem_entries in Hin as [[-> ->]|Hin]; [right|by left].
        split; [left|done].
      * right. split; [by right|done].
Qed.

Lemma unique_from_total verts ps d :
  Forall (λ i, i < length verts) ps → is_Some (unique_from verts ps d).
Proof.
  revert d. induction ps as [|id ps IH]; intros d Hps; simpl; [by eexists|].
  apply Forall_cons in Hps as [Hid Hps].
  apply lookup_lt_is_Some_2 in Hid as [co ->]. by apply IH.
Qed.

Lemma unique_from_length verts ps u :
  unique_from verts ps [] = Some u →
  length u = length (distinct_coords verts ps).
Proof.
  intros (Hnd & Hkeys & _)%unique_from_spec.
  rewrite <-(length_fmap fst u). apply Permutation_length, NoDup_Permutation.
  - apply Hnd, NoDup_nil_2.
  - apply NoDup_remove_dups.
  - intros c. unfold distinct_coords.
    rewrite Hkeys, elem_of_remove_dups, elem_of_nil. tauto.
Qed.
(** ** One step of the stitcher *)

Lemma stitch_polygon_branches p h :
  stitch_polygon p h =
    let ps := mapped_indices (h_ed_xsect h) (edge_keys p) in
    if bool_decide (length ps = 2) then (Ret (), with_edge ps h)
    else if bool_decide (2 < length ps) then
      match unique_from (h_verts h) ps [] with
      | Some unique =>
          if bool_decide (length unique = 2)
          then (Ret (), with_edge (dict_values unique) h)
          else (Ret (), h)
      | None => (Raise IndexError, h)
      end
    else (Ret (), h).
Proof.
  unfold stitch_polygon. rewrite bind_run. simpl. cbv zeta.
  repeat case_bool_decide; try reflexivity.
  rewrite bind_run. unfold unique_dict. rewrite bind_run. simpl.
  destruct (unique_from _ _ _) as [u|]; [|done].
  simpl. by repeat case_bool_decide.
Qed.

Lemma stitch_polygon_cases p h :
  (stitch_polygon p h).2 = h ∨
  ∃ e, stitch_polygon p h = (Ret (), with_edge e h) ∧ length e = 2 ∧
       ∀ i, i ∈ e → i ∈ mapped_indices (h_ed_xsect h) (edge_keys p).
Proof.
  rewrite stitch_polygon_branches. cbv zeta.
  set (ps := mapped_indices _ _).
  case_bool_decide as Hs2; [right; by exists ps|].
  case_bool_decide as Hs3; [|by left].
  destruct (unique_from _ _ _) as [u|] eqn:Hu; [|by left].
  case_bool_decide as Hu2; [right|by left].
  exists (dict_values u). split_and!; [done|by unfold dict_values; rewrite length_fmap|].
  intros i Hi. unfold dict_values in Hi.
  apply list_elem_of_fmap in Hi as ([c i'] & -> & Hin). simpl.
  apply unique_from_spec in Hu as (_ & _ & Hent).
  destruct (Hent _ _ Hin) as [Hnil|[? _]]; [by apply elem_of_nil in Hnil|done].
Qed.

Lemma stitch_polygon_bounded p :
  preserves (λ h, xsect_bounded h ∧ edges_bounded h) (stitch_polygon p).
Proof.
  intros h [Hx He]. destruct (stitch_polygon_cases p h) as [->|(e & -> & Hlen & Hin)]; [done|].
  split; [done|]. apply edges_bounded_with_edge; [done| |done].
  apply Forall_forall. intros i Hi%Hin.
  revert i Hi. apply Forall_forall. by apply mapped_indices_bounded.
Qed.

Lemma stitch_polygon_frame p m :
  preserves (λ h, h_mesh h = m) (stitch_polygon p).
Proof.
  intros h Hm. by destruct (stitch_polygon_cases p h) as [->|(e & -> & _)].
Qed.

Lemma stitch_polygon_total p h :
  xsect_bounded h → (stitch_polygon p h).1 = Ret ().
Proof.
  intros Hb. rewrite stitch_polygon_branches. cbv zeta.
  destruct (unique_from_total (h_verts h)
              (mapped_indices (h_ed_xsect h) (edge_keys p)) [])
    as [u ->]; [by apply mapped_indices_bounded|].
  by repeat case_bool_decide.
Qed.

(** C5: a polygon with exactly two of its edge keys present in the mapping
    makes the stitcher emit exactly one edge, joining the two mapped indices
    in polygon edge order. *)
Theorem C5_two_keys p h k1 k2 i1 i2 :
  present_keys (h_ed_xsect h) p = [k1; k2] →
  h_ed_xsect h !! k1 = Some i1 →
  h_ed_xsect h !! k2 = Some i2 →
  stitch_polygon p h = (Ret (), with_edge [i1; i2] h) ∧
  h_edges (stitch_polygon p h).2 = h_edges h ++ [[i1; i2]].
Proof.
  intros Hkeys H1 H2.
  assert (mapped_indices (h_ed_xsect h) (edge_keys p) = [i1; i2]) as Hps.
  { rewrite mapped_indices_present. fold (present_keys (h_ed_xsect h) p).
    rewrite Hkeys. simpl. by rewrite H1, H2. }
  rewrite stitch_polygon_branches, Hps. done.
Qed.

Lemma C5_two_keys_witness :
  let h := (classify_edges identity_matrix (heap_of tri_mesh)).2 in
  h_edges (stitch_polygon (mkPolygon [0; 1; 2]) h).2 = [[0; 1]].
Proof.
  destruct (C5_two_keys (mkPolygon [0; 1; 2])
              (classify_edges identity_matrix (heap_of tri_mesh)).2
              (0, 1) (0, 2) 0 1) as [_ Hv].
  - by_compute.
  - by_compute.
  - by_compute.
  - intros h. subst h. rewrite Hv. by_compute.
Defined.

(** The stitcher's case analysis on a heap whose stored indices are
    positions of [verts]. *)
Lemma stitch_polygon_dedup p h :
  xsect_bounded h →
  let ps := mapped_indices (h_ed_xsect h) (edge_keys p) in
  let distinct := distinct_coords (h_verts h) ps in
  (2 < length ps → length distinct = 2 →
     ∃ i j ci cj,
       stitch_polygon p h = (Ret (), with_edge [i; j] h) ∧
       i ∈ ps ∧ j ∈ ps ∧
       h_verts h !! i = Some ci ∧ h_verts h !! j = Some cj ∧ ci ≠ cj) ∧
  (2 < length ps → length distinct ≠ 2 → stitch_polygon p h = (Ret (), h)) ∧
  (length ps < 2 → stitch_polygon p h = (Ret (), h)).
Proof.
  intros Hb ps distinct.
  pose proof (stitch_polygon_branches p h) as Hrun. cbv zeta in Hrun. fold ps in Hrun.
  split_and!.
  - intros Hlen Hdist.
    destruct (unique_from_total (h_verts h) ps []) as [u Hu];
      [by apply mapped_indices_bounded|].
    pose proof (unique_from_length _ _ _ Hu) as Hulen. fold distinct in Hulen.
    pose proof (unique_from_spec _ _ _ _ Hu) as (Hnd & _ & Hent).
    rewrite Hu in Hrun.
    rewrite bool_decide_eq_false_2, bool_decide_eq_true_2 in Hrun by lia.
    rewrite bool_decide_eq_true_2 in Hrun by lia.
    destruct u as [|[ci i] [|[cj j] [|? ?]]]; simpl in Hulen; try lia.
    exists i, j, ci, cj.
    destruct (Hent ci i) as [Hnil|[Hi Hci]]; [left|by apply elem_of_nil in Hnil|].
    destruct (Hent cj j) as [Hnil|[Hj Hcj]];
      [right; left|by apply elem_of_nil in Hnil|].
    split_and!; try done.
    specialize (Hnd (NoDup_nil_2)). simpl in Hnd.
    apply NoDup_cons in Hnd as [Hnotin _]. intros ->. apply Hnotin. left.
  - intros Hlen Hdist.
    destruct (unique_from_total (h_verts h) ps []) as [u Hu];
      [by apply mapped_indices_bounded|].
    pose proof (unique_from_length _ _ _ Hu) as Hulen. fold distinct in Hulen.
    rewrite Hu in Hrun.
    rewrite bool_decide_eq_false_2, bool_decide_eq_true_2 in Hrun by lia.
    by rewrite bool_decide_eq_false_2 in Hrun by lia.
  - intros Hlen. by rewrite !bool_decide_eq_false_2 in Hrun by lia.
Qed.
(** ** The two loops *)

Lemma for_each_total {A} (I : Heap → Prop) (body : A → M unit) l :
  (∀ x, x ∈ l → ∀ h, I h → (body x h).1 = Ret () ∧ I (body x h).2) →
  ∀ h, I h → (for_each body l h).1 = Ret () ∧ I (for_each body l h).2.
Proof.
  induction l as [|x l IH]; intros Hbody h Hh; simpl; [done|].
  rewrite bind_run. destruct (Hbody x (list_elem_of_here _ _) h Hh) as [Hret Hinv].
  destruct (body x h) as [[[]|e] h1]; simpl in *; [|done].
  apply IH; [|done]. intros y Hy. apply Hbody. by right.
Qed.

Lemma classify_edge_total itM ed h :
  ed_v0 ed < length (m_vertices (h_mesh h)) →
  ed_v1 ed < length (m_vertices (h_mesh h)) →
  (classify_edge itM ed h).1 = Ret ().
Proof.
  intros [co0 H0]%lookup_lt_is_Some_2 [co1 H1]%lookup_lt_is_Some_2.
  rewrite (classify_edge_branches _ _ _ _ _ H0 H1). cbv zeta.
  by repeat case_match.
Qed.

Lemma classify_edges_frame itM m :
  preserves (λ h, h_mesh h = m) (classify_edges itM).
Proof.
  apply preserves_bind; [by intros h Hh|]. intros m'.
  apply preserves_for_each. intros ed _. apply classify_edge_frame.
Qed.

Lemma stitch_polygons_frame m :
  preserves (λ h, h_mesh h = m) stitch_polygons.
Proof.
  apply preserves_bind; [by intros h Hh|]. intros m'.
  apply preserves_for_each. intros p _. apply stitch_polygon_frame.
Qed.

Lemma classify_edges_bounded itM :
  preserves (λ h, xsect_bounded h ∧ edges_bounded h) (classify_edges itM).
Proof.
  apply preserves_bind; [by intros h Hh|]. intros m'.
  apply preserves_for_each. intros ed _. apply classify_edge_bounded.
Qed.

Lemma stitch_polygons_bounded :
  preserves (λ h, xsect_bounded h ∧ edges_bounded h) stitch_polygons.
Proof.
  apply preserves_bind; [by intros h Hh|]. intros m'.
  apply preserves_for_each. intros p _. apply stitch_polygon_bounded.
Qed.

Lemma classify_edges_total itM h :
  mesh_ok (h_mesh h) → (classify_edges itM h).1 = Ret ().
Proof.
  intros Hok. unfold classify_edges. rewrite bind_run. simpl.
  apply (for_each_total (λ h', h_mesh h' = h_mesh h)); [|done].
  intros ed Hed h' Hm. split; [|by apply classify_edge_frame].
  unfold mesh_ok in Hok. rewrite Forall_forall in Hok.
  destruct (Hok ed Hed). apply classify_edge_total; by rewrite Hm.
Qed.

Lemma stitch_polygons_total h :
  xsect_bounded h → edges_bounded h → (stitch_polygons h).1 = Ret ().
Proof.
  intros Hx He. unfold stitch_polygons. rewrite bind_run. simpl.
  apply (for_each_total (λ h', xsect_bounded h' ∧ edges_bounded h')); [|done].
  intros p _ h' [Hx' He']. split; [by apply stitch_polygon_total|].
  by apply stitch_polygon_bounded.
Qed.

Lemma heap_of_bounded m : xsect_bounded (heap_of m) ∧ edges_bounded (heap_of m).
Proof. split; [apply map_Forall_empty|apply Forall_nil_2]. Qed.

(** ** [section] *)

Lemma section_run itM FILL h :
  section itM FILL h =
    match classify_edges itM (heap_of (h_mesh h)) with
    | (Ret _, h1) =>
        match stitch_polygons h1 with
        | (Ret _, h2) =>
            (Ret match h_edges h2 with
                 | [] => NoSection
                 | _ :: _ => SectionObject (h_verts h2) (h_edges h2) FILL
                 end, h2)
        | (Raise e, h2) => (Raise e, h2)
        end
    | (Raise e, h1) => (Raise e, h1)
    end.
Proof.
  unfold section.
  rewrite bind_run. unfold set_verts at 1.
  rewrite bind_run. unfold set_edges at 1.
  rewrite bind_run. unfold set_ed_xsect at 1.
  cbn [h_mesh h_verts h_edges h_ed_xsect]. fold (heap_of (h_mesh h)).
  rewrite bind_run.
  destruct (classify_edges itM (heap_of (h_mesh h))) as [[[]|e] h1]; [|done].
  rewrite bind_run. destruct (stitch_polygons h1) as [[[]|e] h2]; [|done].
  rewrite bind_run. simpl. by destruct (h_edges h2).
Qed.

Lemma section_reads_mesh_only itM FILL h h' :
  h_mesh h = h_mesh h' → section itM FILL h = section itM FILL h'.
Proof. intros Hm. by rewrite !section_run, Hm. Qed.

Lemma section_frame itM FILL m :
  preserves (λ h, h_mesh h = m) (section itM FILL).
Proof.
  intros h Hm. rewrite section_run.
  pose proof (classify_edges_frame itM m (heap_of (h_mesh h)) Hm) as H1.
  destruct (classify_edges itM (heap_of (h_mesh h))) as [[[]|e] h1]; [|done].
  pose proof (stitch_polygons_frame m h1 H1) as H2.
  by destruct (stitch_polygons h1) as [[[]|e] h2].
Qed.

Lemma section_bounded itM FILL h :
  xsect_bounded (section itM FILL h).2 ∧ edges_bounded (section itM FILL h).2.
Proof.
  rewrite section_run.
  pose proof (classify_edges_bounded itM _ (heap_of_bounded (h_mesh h))) as H1.
  destruct (classify_edges itM (heap_of (h_mesh h))) as [[[]|e] h1]; [|done].
  pose proof (stitch_polygons_bounded h1 H1) as H2.
  by destruct (stitch_polygons h1) as [[[]|e] h2].
Qed.

Lemma section_total itM FILL h :
  mesh_ok (h_mesh h) → ∃ res, (section itM FILL h).1 = Ret res.
Proof.
  intros Hok. rewrite section_run.
  pose proof (classify_edges_total itM (heap_of (h_mesh h)) Hok) as Hret1.
  pose proof (classify_edges_bounded itM _ (heap_of_bounded (h_mesh h))) as [Hx He].
  destruct (classify_edges itM (heap_of (h_mesh h))) as [[[]|e] h1]; [|done].
  pose proof (stitch_polygons_total h1 Hx He) as Hret2.
  destruct (stitch_polygons h1) as [[[]|e] h2]; [|done].
  by eexists.
Qed.

Lemma section_result itM FILL h res :
  (section itM FILL h).1 = Ret res →
  res = match h_edges (section itM FILL h).2 with
        | [] => NoSection
        | _ :: _ => SectionObject (h_verts (section itM FILL h).2)
                                  (h_edges (section itM FILL h).2) FILL
        end.
Proof.
  rewrite section_run.
  destruct (classify_edges itM (heap_of (h_mesh h))) as [[[]|e] h1]; [|done].
  destruct (stitch_polygons h1) as [[[]|e] h2]; [|done].
  simpl. by intros [= <-].
Qed.
Lemma stitcher_heap_bounded itM h0 done :
  xsect_bounded (stitcher_heap itM h0 done) ∧ edges_bounded (stitcher_heap itM h0 done).
Proof.
  unfold stitcher_heap. apply preserves_for_each.
  - intros p _. apply stitch_polygon_bounded.
  - apply classify_edges_bounded, heap_of_bounded.
Qed.

(** C6: whenever the stitcher of [section] reaches a polygon with more than
    two mapped indices, it counts the distinct coordinates of those points;
    with exactly two it emits one edge whose ends are mapped indices of the
    polygon with different coordinates, and otherwise it emits nothing; a
    polygon with fewer than two mapped indices emits nothing either. *)
Theorem C6_more_than_two itM h0 done p :
  let h := stitcher_heap itM h0 done in
  let ps := mapped_indices (h_ed_xsect h) (edge_keys p) in
  let distinct := distinct_coords (h_verts h) ps in
  (2 < length ps → length distinct = 2 →
     ∃ i j ci cj,
       stitch_polygon p h = (Ret (), with_edge [i; j] h) ∧
       i ∈ ps ∧ j ∈ ps ∧
       h_verts h !! i = Some ci ∧ h_verts h !! j = Some cj ∧ ci ≠ cj) ∧
  (2 < length ps → length distinct ≠ 2 → stitch_polygon p h = (Ret (), h)) ∧
  (length ps < 2 → stitch_polygon p h = (Ret (), h)).
Proof. intros h. apply stitch_polygon_dedup, stitcher_heap_bounded. Qed.

Lemma C6_more_than_two_witness :
  let p := mkPolygon [0; 1; 2] in
  let h := stitcher_heap identity_matrix (heap_of touching_mesh) [] in
  mapped_indices (h_ed_xsect h) (edge_keys p) = [0; 1; 2] ∧
  h_edges (stitch_polygon p h).2 = [[2; 1]].
Proof.
  intros p h. split; [by_compute|].
  destruct (C6_more_than_two identity_matrix (heap_of touching_mesh) [] p)
    as (Hedge & _ & _).
  destruct Hedge as (i & j & ci & cj & Hrun & _); [by_compute|by_compute|].
  clear Hrun. by_compute.
Defined.

(** C7: [section] returns [False] exactly when the edge list accumulated by
    the stitcher is empty, and the object built from the buffers otherwise; it
    does return on every mesh whose edges refer to existing vertices; and the
    edge list can be empty although the classifier recorded vertices, as for
    a loose edge that crosses the plane. *)
Theorem C7_no_intersection itM FILL h :
  let run := section itM FILL h in
  (mesh_ok (h_mesh h) → ∃ res, run.1 = Ret res) ∧
  (∀ res, run.1 = Ret res →
     (h_edges run.2 = [] → res = NoSection) ∧
     (h_edges run.2 ≠ [] →
        res = SectionObject (h_verts run.2) (h_edges run.2) FILL ∧ res ≠ NoSection)) ∧
  (let loose := section identity_matrix FILL (heap_of loose_edge_mesh) in
   loose.1 = Ret NoSection ∧ length (h_verts loose.2) = 1 ∧ h_edges loose.2 = []).
Proof.
  intros run. split_and!.
  - apply section_total.
  - intros res Hres. apply section_result in Hres. fold run in Hres.
    destruct (h_edges run.2) as [|e es]; [done|].
    split; [done|]. intros _. by rewrite Hres.
  - cbv zeta. destruct FILL; split_and!; by_compute.
Qed.

(** C8: the caller's mesh is the same after [section] as before it, whether
    [section] returns or raises, and the same holds for each of the two
    loops. *)
Theorem C8_mesh_unchanged itM FILL h :
  h_mesh (section itM FILL h).2 = h_mesh h ∧
  h_mesh (classify_edges itM h).2 = h_mesh h ∧
  h_mesh (stitch_polygons h).2 = h_mesh h.
Proof.
  split_and!.
  - by apply (section_frame itM FILL (h_mesh h)).
  - by apply (classify_edges_frame itM (h_mesh h)).
  - by apply (stitch_polygons_frame (h_mesh h)).
Qed.

(** C9: a second call of [section], made on the heap the first call left
    behind, gives the same result, the same vertex list and the same edge
    list as the first. *)
Theorem C9_deterministic itM FILL h :
  let run1 := section itM FILL h in
  let run2 := section itM FILL run1.2 in
  run2.1 = run1.1 ∧
  h_verts run2.2 = h_verts run1.2 ∧
  h_edges run2.2 = h_edges run1.2.
Proof.
  intros run1 run2.
  assert (run2 = run1) as ->; [|done].
  apply section_reads_mesh_only. by apply (section_frame itM FILL (h_mesh h)).
Qed.

(** C10: after [section], every emitted edge is a pair of indices below the
    length of the vertex list, and so is every index stored in the mapping;
    the vertex list can still hold a vertex that no edge refers to, as the
    point of the loose edge of [tri_mesh]. *)
Theorem C10_edges_in_range itM FILL h :
  let h' := (section itM FILL h).2 in
  Forall (λ e, length e = 2 ∧ Forall (λ i, i < length (h_verts h')) e) (h_edges h') ∧
  map_Forall (λ _ i, i < length (h_verts h')) (h_ed_xsect h') ∧
  (let t := (section identity_matrix FILL (heap_of tri_mesh)).2 in
   h_edges t = [[0; 1]] ∧ length (h_verts t) = 3 ∧ Forall (λ e, 2 ∉ e) (h_edges t)).
Proof.
  intros h'. destruct (section_bounded itM FILL h) as [Hx He].
  split_and!; [done|done|].
  cbv zeta. destruct FILL; split_and!; by_compute.
Qed.

(** * Further properties of [section] *)

(** ** The classifier loop as a map over the edges *)

Lemma classify_edge_point itM ed h co0 co1 :
  m_vertices (h_mesh h) !! ed_v0 ed = Some co0 →
  m_vertices (h_mesh h) !! ed_v1 ed = Some co1 →
  classify_edge itM ed h =
    (Ret (), match edge_point itM (h_mesh h) ed with
             | Some q => with_point (ed_key ed) q h
             | None => h
             end).
Proof.
  intros H0 H1. rewrite (classify_edge_branches _ _ _ _ _ H0 H1).
  unfold edge_point. rewrite H0, H1. cbv zeta. by repeat case_match.
Qed.

Lemma classify_loop_points itM es h :
  Forall (λ ed, ed_v0 ed < length (m_vertices (h_mesh h)) ∧
                ed_v1 ed < length (m_vertices (h_mesh h))) es →
  let run := for_each (classify_edge itM) es h in
  run.1 = Ret () ∧
  h_mesh run.2 = h_mesh h ∧
  h_edges run.2 = h_edges h ∧
  h_verts run.2 = h_verts h ++ omap (edge_point itM (h_mesh h)) es.
Proof.
  revert h. induction es as [|ed es IH]; intros h Hok; simpl.
  - by rewrite app_nil_r.
  - apply Forall_cons in Hok as [[[co0 H0]%lookup_lt_is_Some_2 [co1 H1]%lookup_lt_is_Some_2] Hok].
    rewrite bind_run, (classify_edge_point _ _ _ _ _ H0 H1).
    destruct (edge_point itM (h_mesh h) ed) as [q|] eqn:Hq.
    + destruct (IH (with_point (ed_key ed) q h) Hok) as (Hr & Hm & He & Hv).
      split_and!; [done|done|done|]. rewrite Hv. simpl. by rewrite <-app_assoc.
    + by apply IH.
Qed.

Lemma stitch_loop_buffers ps h :
  let h' := (for_each stitch_polygon ps h).2 in
  h_mesh h' = h_mesh h ∧
  h_verts h' = h_verts h ∧
  h_ed_xsect h' = h_ed_xsect h ∧
  ∃ new, h_edges h' = h_edges h ++ new ∧ length new ≤ length ps.
Proof.
  revert h. induction ps as [|p ps IH]; intros h; simpl.
  - split_and!; [done..|]. exists []. by rewrite app_nil_r.
  - rewrite bind_run.
    destruct (stitch_polygon_cases p h) as [Hsame|(e & Hrun & _)].
    + destruct (stitch_polygon p h) as [[[]|x] h1]; simpl in *; subst h1.
      * destruct (IH h) as (? & ? & ? & new & ? & ?).
        split_and!; [done..|]. exists new. split; [done|lia].
      * split_and!; [done..|]. exists []. rewrite app_nil_r. split; [done|simpl; lia].
    + rewrite Hrun. destruct (IH (with_edge e h)) as (Hm & Hv & Hx & new & He & Hlen).
      split_and!; [done..|]. exists (e :: new). simpl in He.
      rewrite He, <-app_assoc. split; [done|simpl; lia].
Qed.

Lemma section_verts itM FILL h :
  mesh_ok (h_mesh h) →
  h_verts (section itM FILL h).2 =
  omap (edge_point itM (h_mesh h)) (m_edges (h_mesh h)).
Proof.
  intros Hok. rewrite section_run.
  destruct (classify_loop_points itM (m_edges (h_mesh h)) (heap_of (h_mesh h)) Hok)
    as (Hret & Hm & He & Hv).
  unfold classify_edges. rewrite bind_run. simpl.
  destruct (for_each (classify_edge itM) _ _) as [[[]|e] h1]; simpl in *; [|done].
  unfold stitch_polygons. rewrite bind_run. simpl.
  destruct (stitch_loop_buffers (m_polygons (h_mesh h1)) h1) as (_ & Hv2 & _).
  destruct (for_each stitch_polygon _ h1) as [[[]|e] h2]; simpl in *; congruence.
Qed.

(** X1: on a mesh whose edges refer to existing vertices, the vertex list
    that [section] leaves is the list of the points of the edges that cross
    or touch the plane, in edge order. *)
Theorem X1_section_vertices itM FILL h :
  mesh_ok (h_mesh h) →
  h_verts (section itM FILL h).2 =
  omap (edge_point itM (h_mesh h)) (m_edges (h_mesh h)).
Proof. apply section_verts. Qed.

Lemma X1_section_vertices_witness :
  length (h_verts (section identity_matrix true (heap_of tri_mesh)).2) = 3.
Proof.
  rewrite (X1_section_vertices identity_matrix true (heap_of tri_mesh)).
  - by_compute.
  - by_compute.
Defined.

(** ** The mapping after the classifier *)

Lemma edge_point_same_mesh itM h h' ed :
  h_mesh h' = h_mesh h → edge_point itM (h_mesh h') ed = edge_point itM (h_mesh h) ed.
Proof. by intros ->. Qed.

Lemma classify_loop_recorded itM es h :
  Forall (λ ed, ed_v0 ed < length (m_vertices (h_mesh h)) ∧
                ed_v1 ed < length (m_vertices (h_mesh h))) es →
  NoDup (ed_key <$> es) →
  ∀ ed, ed ∈ es → edge_recorded itM h (for_each (classify_edge itM) es h).2 ed.
Proof.
  revert h. induction es as [|e es IH]; intros h Hok Hnd ed Hed.
  { by apply elem_of_nil in Hed. }
  rewrite fmap_cons in Hnd. apply NoDup_cons in Hnd as [Hfresh Hnd].
  pose proof Hok as Hok'. apply Forall_cons in Hok' as [[H0 H1] Hoks].
  apply lookup_lt_is_Some_2 in H0 as [co0 H0], H1 as [co1 H1].
  simpl. rewrite bind_run, (classify_edge_point _ _ _ _ _ H0 H1).
  set (h1 := match edge_point itM (h_mesh h) e with
             | Some q => with_point (ed_key e) q h
             | None => h
             end).
  assert (h_mesh h1 = h_mesh h) as Hm by (subst h1; by case_match).
  assert (Forall (λ ed, ed_v0 ed < length (m_vertices (h_mesh h1)) ∧
                        ed_v1 ed < length (m_vertices (h_mesh h1))) es) as Hoks1
    by by rewrite Hm.
  destruct (classify_loop_points itM es h1 Hoks1) as (_ & _ & _ & Hv).
  unfold edge_recorded.
  apply elem_of_cons in Hed as [->|Hed].
  - rewrite classify_loop_other_key by done. subst h1.
    destruct (edge_point itM (h_mesh h) e) as [q|]; [|done].
    exists (length (h_verts h)). split; [apply lookup_insert_eq|].
    rewrite Hv. simpl. rewrite lookup_app_l by (rewrite length_app; simpl; lia).
    by rewrite lookup_app_r, Nat.sub_diag.
  - specialize (IH h1 Hoks1 Hnd ed Hed). unfold edge_recorded in IH.
    rewrite Hm in IH. destruct (edge_point itM (h_mesh h) ed) as [q|]; [done|].
    rewrite IH. subst h1. case_match; [|done]. simpl.
    apply lookup_insert_ne. intros Heq. apply Hfresh. rewrite Heq.
    by apply list_elem_of_fmap_2.
Qed.

(** X2: when the edges of the mesh refer to existing vertices and have
    pairwise distinct keys, then after [section] the key of every edge with
    a point leads, through the mapping and the vertex list, to the point of
    that very edge, and the key of an edge without a point is absent. *)
Theorem X2_mapping_round_trip itM FILL h ed :
  mesh_ok (h_mesh h) →
  NoDup (ed_key <$> m_edges (h_mesh h)) →
  ed ∈ m_edges (h_mesh h) →
  let h' := (section itM FILL h).2 in
  match edge_point itM (h_mesh h) ed with
  | Some q => ∃ i, h_ed_xsect h' !! ed_key ed = Some i ∧ h_verts h' !! i = Some q
  | None => h_ed_xsect h' !! ed_key ed = None
  end.
Proof.
  intros Hok Hnd Hed h'.
  pose proof (classify_loop_recorded itM _ (heap_of (h_mesh h)) Hok Hnd ed Hed) as Hrec.
  unfold edge_recorded in Hrec. simpl in Hrec. rewrite lookup_empty in Hrec.
  subst h'. rewrite section_run.
  destruct (classify_loop_points itM (m_edges (h_mesh h)) (heap_of (h_mesh h)) Hok)
    as (Hret & _).
  unfold classify_edges. rewrite bind_run. simpl.
  destruct (for_each (classify_edge itM) _ _) as [[[]|e] h1]; simpl in *; [|done].
  unfold stitch_polygons. rewrite bind_run. simpl.
  destruct (stitch_loop_buffers (m_polygons (h_mesh h1)) h1) as (_ & Hv2 & Hx2 & _).
  destruct (for_each stitch_polygon _ h1) as [[[]|e] h2]; simpl in *;
    by rewrite Hv2, Hx2.
Qed.

Lemma X2_mapping_round_trip_witness :
  ∃ i, h_ed_xsect (section identity_matrix true (heap_of tri_mesh)).2 !! (3, 4) = Some i ∧
       h_verts (section identity_matrix true (heap_of tri_mesh)).2 !! i = Some (vec 5 5 0).
Proof.
  pose proof (X2_mapping_round_trip identity_matrix true (heap_of tri_mesh) (mkEdge 3 4)) as H.
  destruct H as (i & Hk & Hv); [by_compute|by_compute|by_compute|].
  exists i. split; [done|]. rewrite Hv. by_compute.
Defined.

(** ** Exceptions *)

Lemma classify_edge_dangling itM ed h :
  dangling (h_mesh h) ed → classify_edge itM ed h = (Raise IndexError, h).
Proof.
  intros Hd. unfold classify_edge. rewrite bind_run. unfold get_vertex_co at 1.
  destruct (m_vertices (h_mesh h) !! ed_v0 ed) as [co0|] eqn:H0; [|done].
  rewrite bind_run. unfold get_vertex_co at 1.
  destruct (m_vertices (h_mesh h) !! ed_v1 ed) as [co1|] eqn:H1; [|done].
  destruct Hd. split; apply lookup_lt_is_Some_1; eauto.
Qed.

Lemma classify_loop_dangling itM es h :
  Exists (dangling (h_mesh h)) es →
  (for_each (classify_edge itM) es h).1 = Raise IndexError.
Proof.
  revert h. induction es as [|ed es IH]; intros h Hex.
  { by apply Exists_nil in Hex. }
  simpl. rewrite bind_run.
  destruct (decide (ed_v0 ed < length (m_vertices (h_mesh h)) ∧
                    ed_v1 ed < length (m_vertices (h_mesh h)))) as [[H0 H1]|Hbad].
  - apply Exists_cons in Hex as [Hbad|Hex]; [by destruct Hbad|].
    pose proof (classify_edge_total itM ed h H0 H1) as Hret.
    pose proof (classify_edge_frame itM ed (h_mesh h) h eq_refl) as Hm.
    destruct (classify_edge itM ed h) as [[[]|e] h1]; simpl in *; [|done].
    apply IH. by rewrite Hm.
  - by rewrite classify_edge_dangling.
Qed.

Lemma section_outcome itM FILL h :
  (mesh_ok (h_mesh h) ∧ ∃ res, (section itM FILL h).1 = Ret res) ∨
  (Exists (dangling (h_mesh h)) (m_edges (h_mesh h)) ∧
   (section itM FILL h).1 = Raise IndexError).
Proof.
  destruct (decide (mesh_ok (h_mesh h))) as [Hok|Hnok].
  - left. split; [done|]. by apply section_total.
  - right. apply not_Forall_Exists in Hnok; [|apply _]. split; [done|].
    rewrite section_run. unfold classify_edges. rewrite bind_run. simpl.
    pose proof (classify_loop_dangling itM _ (heap_of (h_mesh h)) Hnok) as Hr.
    destruct (for_each (classify_edge itM) _ _) as [[[]|e] h1]; simpl in *; congruence.
Qed.

Lemma dangling_not_ok m : Exists (dangling m) (m_edges m) → ¬ mesh_ok m.
Proof.
  intros (ed & Hin & Hd)%Exists_exists Hok.
  unfold mesh_ok in Hok. rewrite Forall_forall in Hok. by destruct Hd; apply Hok.
Qed.

(** X3: [section] raises [IndexError] exactly when some edge of the mesh
    names a vertex index outside [m.vertices]; it returns for every other
    mesh, and it never raises [ZeroDivisionError]. *)
Theorem X3_section_exceptions itM FILL h :
  let r := (section itM FILL h).1 in
  (r = Raise IndexError ↔ Exists (dangling (h_mesh h)) (m_edges (h_mesh h))) ∧
  ((∃ res, r = Ret res) ↔ mesh_ok (h_mesh h)) ∧
  r ≠ Raise ZeroDivisionError.
Proof.
  intros r. subst r.
  destruct (section_outcome itM FILL h) as [[Hok [res Hres]]|[Hbad Hraise]].
  - rewrite Hres. split_and!; [|split; eauto|done].
    split; [done|]. intros Hd. by apply dangling_not_ok in Hd.
  - rewrite Hraise. split_and!; [done| |done].
    split; [by intros [res ?]|]. intros Hok. by apply dangling_not_ok in Hbad.
Qed.

Lemma X3_section_exceptions_witness :
  (section identity_matrix true (heap_of dangling_mesh)).1 = Raise IndexError.
Proof.
  apply (X3_section_exceptions identity_matrix true (heap_of dangling_mesh)).
  apply Exists_cons_tl, Exists_cons_hd. unfold dangling. simpl. lia.
Defined.

(** ** Meshes that yield no section *)

(** X4: a mesh without polygons yields no section, whatever its edges do:
    [section] returns [False] on every such mesh whose edges refer to
    existing vertices. *)
Theorem X4_no_polygons itM FILL h :
  mesh_ok (h_mesh h) →
  m_polygons (h_mesh h) = [] →
  (section itM FILL h).1 = Ret NoSection.
Proof.
  intros Hok Hnop. rewrite section_run.
  destruct (classify_loop_points itM (m_edges (h_mesh h)) (heap_of (h_mesh h)) Hok)
    as (Hret & Hm & He & _).
  unfold classify_edges. rewrite bind_run. simpl.
  destruct (for_each (classify_edge itM) _ _) as [[[]|e] h1]; simpl in *; [|done].
  unfold stitch_polygons. rewrite bind_run. simpl. rewrite Hm, Hnop. simpl.
  by rewrite He.
Qed.

Lemma X4_no_polygons_witness :
  (section identity_matrix true (heap_of loose_edge_mesh)).1 = Ret NoSection.
Proof.
  apply (X4_no_polygons identity_matrix true (heap_of loose_edge_mesh)).
  - by_compute.
  - reflexivity.
Defined.

Lemma edge_point_one_side itM m ed :
  all_above itM m ∨ all_below itM m → edge_point itM m ed = None.
Proof.
  intros Hside. unfold edge_point.
  destruct (m_vertices m !! ed_v0 ed) as [co0|] eqn:H0; [|done].
  destruct (m_vertices m !! ed_v1 ed) as [co1|] eqn:H1; [|done].
  apply list_elem_of_lookup_2 in H0, H1. cbv zeta.
  pose proof EPSILON_pos as Heps.
  destruct Hside as [Hall|Hall]; unfold all_above, all_below in Hall;
    rewrite Forall_forall in Hall;
    pose proof (Hall _ H0) as Hz0; pose proof (Hall _ H1) as Hz1;
    generalize dependent (mat_mul_vec itM co0);
    generalize dependent (mat_mul_vec itM co1); intros p1 Hz1 p0 Hz0.
  - assert (0 < vz p0)%Qc as Hp0 by by apply Qclt_le_trans with EPSILON.
    assert (0 < vz p1)%Qc as Hp1 by by apply Qclt_le_trans with EPSILON.
    unfold sign_test, gt0. rewrite !bool_decide_eq_true_2 by done. simpl.
    rewrite !abs_pos by done. unfold ltb.
    by rewrite !bool_decide_eq_false_2 by by apply Qcle_not_lt.
  - assert (- EPSILON < 0)%Qc as Hneg by reflexivity.
    assert (vz p0 < 0)%Qc as Hp0 by by apply Qcle_lt_trans with (- EPSILON)%Qc.
    assert (vz p1 < 0)%Qc as Hp1 by by apply Qcle_lt_trans with (- EPSILON)%Qc.
    assert (¬ (0 < vz p0)%Qc) as Hn0 by by apply Qcle_not_lt, Qclt_le_weak.
    assert (¬ (0 < vz p1)%Qc) as Hn1 by by apply Qcle_not_lt, Qclt_le_weak.
    unfold sign_test, gt0. rewrite !bool_decide_eq_false_2 by done. simpl.
    rewrite !abs_nonpos by done. unfold ltb.
    rewrite !bool_decide_eq_false_2; [done|..]; apply Qcle_not_lt;
      rewrite <-(Qcopp_involutive EPSILON); by apply Qcopp_le_compat.
Qed.

Lemma omap_all_None {A B} (f : A → option B) l :
  (∀ x, f x = None) → omap f l = [].
Proof. intros Hf. induction l as [|x l IH]; simpl; [done|]. by rewrite Hf. Qed.

Lemma stitch_loop_empty_mapping ps h :
  h_ed_xsect h = ∅ → for_each stitch_polygon ps h = (Ret (), h).
Proof.
  intros Hempty. induction ps as [|p ps IH]; simpl; [done|].
  rewrite bind_run, stitch_polygon_branches. cbv zeta.
  assert (mapped_indices (h_ed_xsect h) (edge_keys p) = []) as ->.
  { unfold mapped_indices. apply omap_all_None. intros k. by rewrite Hempty. }
  simpl. exact IH.
Qed.

Lemma classify_loop_no_points itM es h :
  Forall (λ ed, ed_v0 ed < length (m_vertices (h_mesh h)) ∧
                ed_v1 ed < length (m_vertices (h_mesh h))) es →
  (∀ ed, edge_point itM (h_mesh h) ed = None) →
  for_each (classify_edge itM) es h = (Ret (), h).
Proof.
  intros Hes Hnone. induction es as [|ed es IH]; simpl; [done|].
  apply Forall_cons in Hes as [[[co0 H0]%lookup_lt_is_Some_2 [co1 H1]%lookup_lt_is_Some_2] Hes].
  rewrite bind_run, (classify_edge_point _ _ _ _ _ H0 H1), Hnone. by apply IH.
Qed.

(** X5: a mesh that lies wholly on one side of the plane, every vertex at
    least [EPSILON] away from it, yields no section: [section] returns
    [False] and records no vertex, no mapping entry and no edge. *)
Theorem X5_one_sided itM FILL h :
  mesh_ok (h_mesh h) →
  all_above itM (h_mesh h) ∨ all_below itM (h_mesh h) →
  section itM FILL h = (Ret NoSection, heap_of (h_mesh h)).
Proof.
  intros Hok Hside. rewrite section_run.
  assert (classify_edges itM (heap_of (h_mesh h)) = (Ret (), heap_of (h_mesh h))) as ->.
  { unfold classify_edges. rewrite bind_run. simpl.
    apply classify_loop_no_points; [done|].
    intros ed. by apply edge_point_one_side. }
  unfold stitch_polygons. rewrite bind_run. simpl.
  by rewrite stitch_loop_empty_mapping.
Qed.

Lemma X5_one_sided_witness :
  section identity_matrix true (heap_of above_mesh) = (Ret NoSection, heap_of above_mesh).
Proof.
  apply (X5_one_sided identity_matrix true (heap_of above_mesh)).
  - by_compute.
  - left. by_compute.
Defined.

(** ** What the loops do to the buffers *)

Lemma classify_loop_buffers itM es h :
  let h' := (for_each (classify_edge itM) es h).2 in
  h_edges h' = h_edges h ∧
  ∃ added, h_verts h' = h_verts h ++ added ∧ length added ≤ length es.
Proof.
  revert h. induction es as [|ed es IH]; intros h; simpl.
  - split; [done|]. exists []. by rewrite app_nil_r.
  - rewrite bind_run.
    destruct (classify_edge_cases itM ed h) as [Hsame|[co Hrun]].
    + destruct (classify_edge itM ed h) as [[[]|x] h1]; simpl in *; subst h1.
      * destruct (IH h) as (? & added & ? & ?). split; [done|].
        exists added. split; [done|lia].
      * split; [done|]. exists []. rewrite app_nil_r. split; [done|simpl; lia].
    + rewrite Hrun. destruct (IH (with_point (ed_key ed) co h)) as (He & added & Hv & Hlen).
      split; [done|]. exists (co :: added). simpl in Hv.
      rewrite Hv, <-app_assoc. split; [done|simpl; lia].
Qed.

(** X6: the classifier loop only appends to [verts], at most one vertex per
    edge, and leaves [edges] alone; the stitcher loop only appends to
    [edges], at most one edge per polygon, and leaves [verts] and [ed_xsect]
    alone; so [section] ends with at most as many vertices as the mesh has
    edges and at most as many edges as the mesh has polygons. *)
Theorem X6_buffers_append_only itM FILL h :
  (let h1 := (classify_edges itM h).2 in
   h_edges h1 = h_edges h ∧
   ∃ added, h_verts h1 = h_verts h ++ added ∧
            length added ≤ length (m_edges (h_mesh h))) ∧
  (let h2 := (stitch_polygons h).2 in
   h_verts h2 = h_verts h ∧ h_ed_xsect h2 = h_ed_xsect h ∧
   ∃ new, h_edges h2 = h_edges h ++ new ∧
          length new ≤ length (m_polygons (h_mesh h))) ∧
  (let h' := (section itM FILL h).2 in
   length (h_verts h') ≤ length (m_edges (h_mesh h)) ∧
   length (h_edges h') ≤ length (m_polygons (h_mesh h))).
Proof.
  assert (∀ h, let h1 := (classify_edges itM h).2 in
     h_edges h1 = h_edges h ∧
     ∃ added, h_verts h1 = h_verts h ++ added ∧
              length added ≤ length (m_edges (h_mesh h))) as Hc.
  { intros h0. unfold classify_edges. rewrite bind_run. simpl.
    apply classify_loop_buffers. }
  assert (∀ h, let h2 := (stitch_polygons h).2 in
     h_mesh h2 = h_mesh h ∧
     h_verts h2 = h_verts h ∧ h_ed_xsect h2 = h_ed_xsect h ∧
     ∃ new, h_edges h2 = h_edges h ++ new ∧
            length new ≤ length (m_polygons (h_mesh h))) as Hs.
  { intros h0. unfold stitch_polygons. rewrite bind_run. simpl.
    apply stitch_loop_buffers. }
  split_and!; [apply Hc|by destruct (Hs h) as (_ & ? & ? & ?)|].
  cbv zeta. split.
  - rewrite section_run.
    destruct (Hc (heap_of (h_mesh h))) as (_ & added & Hv & Hlen). simpl in *.
    destruct (classify_edges itM (heap_of (h_mesh h))) as [[[]|e] h1]; simpl in *;
      [|by rewrite Hv].
    destruct (Hs h1) as (_ & Hv2 & _).
    destruct (stitch_polygons h1) as [[[]|e] h2]; simpl in *; by rewrite Hv2, Hv.
  - rewrite section_run.
    destruct (Hc (heap_of (h_mesh h))) as (He & _). simpl in *.
    pose proof (classify_edges_frame itM (h_mesh h) (heap_of (h_mesh h)) eq_refl) as Hm.
    destruct (classify_edges itM (heap_of (h_mesh h))) as [[[]|e] h1]; simpl in *;
      [|rewrite He; simpl; lia].
    destruct (Hs h1) as (_ & _ & _ & new & He2 & Hlen).
    rewrite Hm in Hlen.
    destruct (stitch_polygons h1) as [[[]|e] h2]; simpl in *; by rewrite He2, He.
Qed.

(** ** Triangles in general position *)

Lemma key_crosses_ord_ind itM m a b :
  key_crosses itM m (ord_ind a b) →
  ∃ co_a co_b,
    m_vertices m !! a = Some co_a ∧ m_vertices m !! b = Some co_b ∧
    gt0 (vz (mat_mul_vec itM co_a)) ≠ gt0 (vz (mat_mul_vec itM co_b)).
Proof.
  unfold key_crosses, ord_ind. case_bool_decide; simpl.
  - done.
  - intros (co0 & co1 & H0 & H1 & Hne). exists co1, co0. by split_and!.
Qed.

Lemma edge_point_off_plane itM m ed q :
  all_off_plane itM m → edge_point itM m ed = Some q → key_crosses itM m (ed_key ed).
Proof.
  intros Hoff. unfold edge_point.
  destruct (m_vertices m !! ed_v0 ed) as [co0|] eqn:H0; [|done].
  destruct (m_vertices m !! ed_v1 ed) as [co1|] eqn:H1; [|done].
  cbv zeta. unfold all_off_plane in Hoff. rewrite Forall_forall in Hoff.
  pose proof (Hoff _ (list_elem_of_lookup_2 _ _ _ H0)) as Hz0.
  pose proof (Hoff _ (list_elem_of_lookup_2 _ _ _ H1)) as Hz1.
  destruct (sign_test _ _) eqn:Hs.
  - intros _.
    assert (gt0 (vz (mat_mul_vec itM co0)) ≠ gt0 (vz (mat_mul_vec itM co1))) as Hne.
    { intros Heq. unfold sign_test in Hs. rewrite Heq in Hs.
      destruct (gt0 (vz (mat_mul_vec itM co1))); simpl in Hs; discriminate. }
    unfold key_crosses, ed_key, ord_ind. case_bool_decide; simpl.
    + exists co0, co1. by split_and!.
    + exists co1, co0. by split_and!.
  - unfold ltb. by rewrite !bool_decide_eq_false_2 by by apply Qcle_not_lt.
Qed.

Lemma classify_edge_crossing_entries itM ed m :
  all_off_plane itM m →
  preserves (λ h, h_mesh h = m ∧
                  map_Forall (λ k _, key_crosses itM m k) (h_ed_xsect h))
            (classify_edge itM ed).
Proof.
  intros Hoff h [Hm Hx].
  destruct (decide (ed_v0 ed < length (m_vertices (h_mesh h)) ∧
                    ed_v1 ed < length (m_vertices (h_mesh h)))) as [[H0 H1]|Hbad].
  - apply lookup_lt_is_Some_2 in H0 as [co0 H0], H1 as [co1 H1].
    rewrite (classify_edge_point _ _ _ _ _ H0 H1). simpl.
    destruct (edge_point itM (h_mesh h) ed) as [q|] eqn:Hq; [|done].
    split; [done|]. simpl. apply map_Forall_insert_2; [|done].
    rewrite Hm in Hq. by eapply edge_point_off_plane.
  - by rewrite classify_edge_dangling.
Qed.

Lemma stitcher_heap_crossing_entries itM h0 done :
  all_off_plane itM (h_mesh h0) →
  map_Forall (λ k _, key_crosses itM (h_mesh h0) k)
             (h_ed_xsect (stitcher_heap itM h0 done)).
Proof.
  intros Hoff. unfold stitcher_heap.
  destruct (stitch_loop_buffers done (classify_edges itM (heap_of (h_mesh h0))).2)
    as (_ & _ & -> & _).
  unfold classify_edges. rewrite bind_run. simpl.
  apply (preserves_for_each
           (λ h, h_mesh h = h_mesh h0 ∧
                 map_Forall (λ k _, key_crosses itM (h_mesh h0) k) (h_ed_xsect h))).
  - intros ed _. by apply classify_edge_crossing_entries.
  - split; [done|]. apply map_Forall_empty.
Qed.

Lemma edge_keys_triangle a b c :
  edge_keys (mkPolygon [a; b; c]) = [ord_ind a b; ord_ind b c; ord_ind c a].
Proof. reflexivity. Qed.

(** X10: when no vertex of the mesh is within [EPSILON] of the plane, a
    triangle never has more than two mapped indices, so the stitcher of
    [section] handles it in the plain branch: it emits the pair of the two
    mapped indices, or nothing. *)
Theorem X10_triangle_general_position itM h0 done a b c :
  all_off_plane itM (h_mesh h0) →
  let h := stitcher_heap itM h0 done in
  let p := mkPolygon [a; b; c] in
  let ps := mapped_indices (h_ed_xsect h) (edge_keys p) in
  length ps ≤ 2 ∧
  (stitch_polygon p h = (Ret (), h) ∨
   length ps = 2 ∧ stitch_polygon p h = (Ret (), with_edge ps h)).
Proof.
  intros Hoff h p ps.
  pose proof (stitcher_heap_crossing_entries itM h0 done Hoff) as Hx. fold h in Hx.
  assert (length ps ≤ 2) as Hlen.
  { subst ps p. rewrite edge_keys_triangle. unfold mapped_indices. simpl.
    destruct (h_ed_xsect h !! ord_ind a b) as [i1|] eqn:H1;
    destruct (h_ed_xsect h !! ord_ind b c) as [i2|] eqn:H2;
    destruct (h_ed_xsect h !! ord_ind c a) as [i3|] eqn:H3; simpl; try lia.
    apply Hx, key_crosses_ord_ind in H1 as (ca & cb & Ha & Hb & Hab).
    apply Hx, key_crosses_ord_ind in H2 as (cb' & cc & Hb' & Hc & Hbc).
    apply Hx, key_crosses_ord_ind in H3 as (cc' & ca' & Hc' & Ha' & Hca).
    simplify_eq.
    by destruct (gt0 (vz (mat_mul_vec itM ca))), (gt0 (vz (mat_mul_vec itM cb))),
                (gt0 (vz (mat_mul_vec itM cc))). }
  split; [done|]. rewrite stitch_polygon_branches. cbv zeta. fold ps.
  case_bool_decide as H2; [by right|left].
  by rewrite bool_decide_eq_false_2 by lia.
Qed.

Lemma X10_triangle_general_position_witness :
  let h := stitcher_heap identity_matrix (heap_of tri_mesh) [] in
  length (mapped_indices (h_ed_xsect h) (edge_keys (mkPolygon [0; 1; 2]))) ≤ 2.
Proof.
  apply (X10_triangle_general_position identity_matrix (heap_of tri_mesh) [] 0 1 2).
  by_compute.
Defined.

(** ** Keys and vertices *)

Lemma one_key_per_vertex_with_point key co h :
  xsect_bounded h → h_ed_xsect h !! key = None →
  one_key_per_vertex h → one_key_per_vertex (with_point key co h).
Proof.
  intros Hb Hfresh Hone i Hi. simpl in *. rewrite length_app in Hi. simpl in Hi.
  destruct (decide (i = length (h_verts h))) as [->|Hne].
  - exists key. split; [apply lookup_insert_eq|].
    intros k' Hk'. destruct (decide (k' = key)) as [|Hk]; [done|].
    rewrite lookup_insert_ne in Hk' by done. apply Hb in Hk'. simpl in Hk'. lia.
  - destruct (Hone i) as (k & Hk & Huniq); [lia|].
    assert (k ≠ key) as Hkk by (intros ->; congruence).
    exists k. split; [by rewrite lookup_insert_ne|].
    intros k' Hk'. destruct (decide (k' = key)) as [->|Hk'ne].
    + rewrite lookup_insert_eq in Hk'. congruence.
    + rewrite lookup_insert_ne in Hk' by done. by apply Huniq.
Qed.

Lemma classify_loop_one_key itM es h :
  NoDup (ed_key <$> es) →
  (∀ ed, ed ∈ es → h_ed_xsect h !! ed_key ed = None) →
  xsect_bounded h → one_key_per_vertex h →
  one_key_per_vertex (for_each (classify_edge itM) es h).2.
Proof.
  revert h. induction es as [|e es IH]; intros h Hnd Hfresh Hb Hone; [done|].
  rewrite fmap_cons in Hnd. apply NoDup_cons in Hnd as [Hnotin Hnd].
  simpl. rewrite bind_run.
  destruct (classify_edge_cases itM e h) as [Hsame|[co Hrun]].
  - destruct (classify_edge itM e h) as [[[]|x] h1]; simpl in *; subst h1; [|done].
    apply IH; [done| |done|done]. intros ed Hed. apply Hfresh. by right.
  - rewrite Hrun. apply IH; [done| | |].
    + intros ed Hed. simpl. rewrite lookup_insert_ne; [apply Hfresh; by right|].
      intros Heq. apply Hnotin. rewrite Heq. by apply list_elem_of_fmap_2.
    + by apply xsect_bounded_with_point.
    + apply one_key_per_vertex_with_point; [done| |done]. apply Hfresh. left.
Qed.

(** X11: when the edges of the mesh have pairwise distinct keys, every
    vertex that [section] records is stored in the mapping under exactly one
    key: no recorded vertex is lost to the stitcher and no two edges share
    one. *)
Theorem X11_one_key_per_vertex itM FILL h :
  NoDup (ed_key <$> m_edges (h_mesh h)) →
  one_key_per_vertex (section itM FILL h).2.
Proof.
  intros Hnd. rewrite section_run.
  assert (one_key_per_vertex (classify_edges itM (heap_of (h_mesh h))).2) as H1.
  { unfold classify_edges. rewrite bind_run. simpl.
    apply classify_loop_one_key; [done|done|apply heap_of_bounded|].
    intros i Hi. simpl in Hi. lia. }
  destruct (classify_edges itM (heap_of (h_mesh h))) as [[[]|e] h1]; [|done].
  simpl in H1.
  assert (one_key_per_vertex (stitch_polygons h1).2) as H2.
  { unfold stitch_polygons. rewrite bind_run. simpl.
    destruct (stitch_loop_buffers (m_polygons (h_mesh h1)) h1) as (_ & Hv & Hx & _).
    unfold one_key_per_vertex. by rewrite Hv, Hx. }
  by destruct (stitch_polygons h1) as [[[]|e] h2].
Qed.

Lemma X11_one_key_per_vertex_witness :
  one_key_per_vertex (section identity_matrix true (heap_of tri_mesh)).2.
Proof.
  apply (X11_one_key_per_vertex identity_matrix true (heap_of tri_mesh)).
  by_compute.
Defined.

(** * The list of objects to cut *)

Lemma append_objects MATRICES obs result :
  fold_left (append_object MATRICES) obs result = result ++ (to_item MATRICES <$> obs).
Proof.
  revert result. induction obs as [|o obs IH]; intros result; simpl.
  - by rewrite app_nil_r.
  - rewrite IH. unfold append_object, to_item. destruct MATRICES; by rewrite <-app_assoc.
Qed.

Lemma dupli_step_expansion MATRICES HACK result o :
  dupli_step MATRICES HACK result o = result ++ (to_item MATRICES <$> expansion HACK o).
Proof.
  unfold dupli_step, expansion, dupTest. destruct (is_instancer o).
  - case_bool_decide as Hlen.
    + apply append_objects.
    + destruct (ob_children o); [by rewrite app_nil_r|]. simpl in Hlen. lia.
  - destruct HACK, (not_dpl o); simpl; rewrite ?app_nil_r; try done;
      unfold append_object, to_item; by destruct MATRICES.
Qed.

Lemma dupli_loop_expansion MATRICES HACK oblist result :
  fold_left (dupli_step MATRICES HACK) oblist result =
  result ++ (to_item MATRICES <$> (oblist ≫= expansion HACK)).
Proof.
  revert result. induction oblist as [|o oblist IH]; intros result; simpl.
  - by rewrite app_nil_r.
  - rewrite IH, dupli_step_expansion, fmap_app. by rewrite <-app_assoc.
Qed.

Lemma getObjectsAndDuplis_expansion oblist MATRICES HACK :
  getObjectsAndDuplis oblist MATRICES HACK =
  to_item MATRICES <$> (oblist ≫= expansion HACK).
Proof. unfold getObjectsAndDuplis. by rewrite dupli_loop_expansion. Qed.

Lemma item_object_to_item MATRICES (l : list Object) :
  item_object <$> (to_item MATRICES <$> l) = l.
Proof.
  rewrite <-list_fmap_compose. rewrite <-(list_fmap_id l) at 2.
  apply list_fmap_ext. intros _ o _. unfold to_item. by destruct MATRICES.
Qed.

(** X13: an object is in the list that [getObjectsAndDuplis] returns
    exactly when it is an object of [oblist] that is no instancer (and, with
    [HACK], whose name does not begin with "dpl_"), or a child of an
    instancer of [oblist]; so an instancer stands in the result only as the
    child of another, and the children are kept whatever their name. *)
Theorem X13_result_members oblist MATRICES HACK o :
  o ∈ item_object <$> getObjectsAndDuplis oblist MATRICES HACK ↔
  (o ∈ oblist ∧ is_instancer o = false ∧ (HACK = true → not_dpl o = true)) ∨
  (∃ parent, parent ∈ oblist ∧ is_instancer parent = true ∧ o ∈ ob_children parent).
Proof.
  rewrite getObjectsAndDuplis_expansion, item_object_to_item, list_elem_of_bind.
  split.
  - intros (x & Ho & Hx). unfold expansion in Ho.
    destruct (is_instancer x) eqn:Hinst; [right; by exists x|].
    destruct HACK, (not_dpl x) eqn:Hn; simpl in Ho;
      try (by apply elem_of_nil in Ho);
      apply list_elem_of_singleton in Ho as ->; left; by rewrite ?Hn.
  - intros [(Hin & Hinst & Hname)|(parent & Hin & Hinst & Hch)].
    + exists o. split; [|done]. unfold expansion. rewrite Hinst.
      destruct HACK; simpl; [rewrite Hname by done; simpl|]; apply list_elem_of_singleton; done.
    + exists parent. split; [|done]. unfold expansion. by rewrite Hinst.
Qed.

(** X14: with [MATRICES] every element of the result is the tuple of an
    object and that object's own [matrix_world], without it every element is
    a bare object, and the objects are the same in the same order. *)
Theorem X14_matrices oblist HACK :
  let plain := getObjectsAndDuplis oblist false HACK in
  let pairs := getObjectsAndDuplis oblist true HACK in
  pairs = (λ o, ItemPair o (matrix_world o)) <$> (item_object <$> plain) ∧
  plain = ItemObject <$> (item_object <$> plain) ∧
  item_object <$> pairs = item_object <$> plain.
Proof.
  cbv zeta. rewrite !getObjectsAndDuplis_expansion, !item_object_to_item. done.
Qed.

(** X15: [HACK] only removes elements: the objects returned with [HACK]
    are a sublist, in the same order, of those returned without. *)
Theorem X15_hack_sublist oblist MATRICES :
  (item_object <$> getObjectsAndDuplis oblist MATRICES true)
    `sublist_of` (item_object <$> getObjectsAndDuplis oblist MATRICES false).
Proof.
  rewrite !getObjectsAndDuplis_expansion, !item_object_to_item.
  induction oblist as [|o oblist IH]; simpl; [done|].
  apply sublist_app; [|done].
  unfold expansion. destruct (is_instancer o); [done|].
  destruct (not_dpl o); simpl; [done|]. apply sublist_nil_l.
Qed.

(** X16: on a list without instancers, and without [HACK], the objects
    returned are the objects given, in the same order. *)
Theorem X16_no_instancers oblist MATRICES :
  Forall (λ o, is_instancer o = false) oblist →
  item_object <$> getObjectsAndDuplis oblist MATRICES false = oblist.
Proof.
  intros Hno. rewrite getObjectsAndDuplis_expansion, item_object_to_item.
  induction Hno as [|o oblist Ho _ IH]; simpl; [done|].
  unfold expansion at 1. rewrite Ho. simpl. by f_equal.
Qed.

Lemma X16_no_instancers_witness :
  item_object <$> getObjectsAndDuplis [plane_ob; tri_ob; lamp_ob] true false =
  [plane_ob; tri_ob; lamp_ob].
Proof.
  apply (X16_no_instancers [plane_ob; tri_ob; lamp_ob] true).
  repeat constructor.
Defined.

(** * The operator *)

Lemma cut_items_run act tM itM fill objs ps rs :
  match cut_items act tM itM fill (to_item true <$> objs) (ps, rs) with
  | inr (ps', rs') =>
      Forall fit_to_cut (filter (λ o, cut_candidate act o = true) objs) ∧
      ∃ np nr, ps' = ps ++ np ∧ rs' = rs ++ nr ∧
        length np + length nr = length (filter (λ o, cut_candidate act o = true) objs) ∧
        Forall (λ p, part_matrix_world p = tM ∧ part_fill p = fill) np ∧
        Forall (λ r, r = no_intersection_warning) nr
  | inl (e, rs') =>
      (e = AttributeError ∨ e = SectionRaised IndexError) ∧
      Exists (λ o, ¬ fit_to_cut o) (filter (λ o, cut_candidate act o = true) objs)
  end.
Proof.
  revert ps rs. induction objs as [|o objs IH]; intros ps rs.
  { simpl. split; [by apply Forall_nil_2|]. exists [], []. by rewrite !app_nil_r. }
  rewrite fmap_cons. simpl. destruct (cut_candidate act o) eqn:Hc; last first.
  { rewrite filter_cons_False by (by rewrite Hc). apply IH. }
  rewrite filter_cons_True by done.
  destruct (to_mesh o) as [m|] eqn:Hmesh; last first.
  { split; [by left|]. apply Exists_cons_hd. unfold fit_to_cut. rewrite Hmesh. tauto. }
  destruct (section_outcome (mat_mul itM (matrix_world o)) fill (heap_of m))
    as [[Hok [res Hres]]|[Hbad Hraise]]; simpl in *.
  - pose proof (section_result _ _ _ _ Hres) as Hshape. rewrite Hres.
    assert (fit_to_cut o) as Hfit by (unfold fit_to_cut; by rewrite Hmesh).
    destruct res as [|verts edges FILL].
    + specialize (IH ps (rs ++ [no_intersection_warning])).
      destruct (cut_items _ _ _ _ _ _) as [[e rs']|[ps' rs']].
      { destruct IH as [He Hex]. split; [done|]. by apply Exists_cons_tl. }
      destruct IH as (Hall & np & nr & -> & -> & Hlen & Hnp & Hnr).
      split; [by apply Forall_cons|].
      exists np, (no_intersection_warning :: nr). rewrite <-app_assoc.
      split_and!; [done|done|simpl; lia|done|by apply Forall_cons].
    + assert (FILL = fill) as -> by (by destruct (h_edges _); simplify_eq).
      specialize (IH (ps ++ [mkPart verts edges fill tM]) rs).
      destruct (cut_items _ _ _ _ _ _) as [[e rs']|[ps' rs']].
      { destruct IH as [He Hex]. split; [done|]. by apply Exists_cons_tl. }
      destruct IH as (Hall & np & nr & -> & -> & Hlen & Hnp & Hnr).
      split; [by apply Forall_cons|].
      exists (mkPart verts edges fill tM :: np), nr. rewrite <-app_assoc.
      split_and!; [done|done|simpl; lia|by apply Forall_cons|done].
  - rewrite Hraise. split; [by right|]. apply Exists_cons_hd.
    unfold fit_to_cut. rewrite Hmesh. by apply dangling_not_ok.
Qed.

Lemma execute_cutting inverted act sel fill itM :
  ob_type act = "MESH"%string →
  2 ≤ length sel →
  inverted (matrix_world act) = Some itM →
  execute inverted (Some act) sel fill =
    match cut_items act (matrix_world act) itM fill
            (to_item true <$> (sel ≫= expansion false)) ([], []) with
    | inl (e, reports) => Raised e reports
    | inr (parts, reports) => FINISHED parts reports
    end.
Proof.
  intros Hty Hlen Hinv. unfold execute.
  rewrite bool_decide_eq_false_2 by (by intros ?).
  rewrite bool_decide_eq_true_2 by done.
  cbv zeta. by rewrite Hinv, getObjectsAndDuplis_expansion.
Qed.

Lemma execute_finished inverted active sel fill parts reports :
  execute inverted active sel fill = FINISHED parts reports →
  ∃ act itM, active = Some act ∧ ob_type act = "MESH"%string ∧ 2 ≤ length sel ∧
             inverted (matrix_world act) = Some itM.
Proof.
  unfold execute. destruct active as [act|]; [|done].
  case_bool_decide as Hty; [done|]. case_bool_decide as Hlen; [|done].
  cbv zeta. destruct (inverted (matrix_world act)) as [itM|] eqn:Hinv; [|done].
  intros _. exists act, itM. split_and!; [done| |done|done].
  by destruct (decide (ob_type act = "MESH"%string)).
Qed.

(** X17: when [execute] finishes, every object it had to cut (the objects
    of the expanded selection other than the active one, of type MESH,
    SURFACE or CURVE) has given either one part or one "does not intersect"
    warning, nothing else was reported, and every part carries the active
    object's [matrix_world] and the scene's fill setting. *)
Theorem X17_parts_and_warnings inverted active sel fill parts reports :
  execute inverted active sel fill = FINISHED parts reports →
  ∃ act, active = Some act ∧
    length parts + length reports = length (candidates act sel) ∧
    Forall (λ p, part_matrix_world p = matrix_world act ∧ part_fill p = fill) parts ∧
    Forall (λ r, r = no_intersection_warning) reports.
Proof.
  intros Hfin.
  destruct (execute_finished _ _ _ _ _ _ Hfin) as (act & itM & -> & Hty & Hlen & Hinv).
  exists act. split; [done|].
  rewrite (execute_cutting _ _ _ _ _ Hty Hlen Hinv) in Hfin.
  pose proof (cut_items_run act (matrix_world act) itM fill
                (sel ≫= expansion false) [] []) as Hrun.
  destruct (cut_items _ _ _ _ _ _) as [[e rs']|[ps' rs']]; [done|].
  destruct Hrun as (_ & np & nr & -> & -> & Hcount & Hnp & Hnr).
  simpl in Hfin. by simplify_eq.
Qed.

Lemma X17_parts_and_warnings_witness :
  ∃ parts reports,
    execute inverted_identity (Some plane_ob)
            [plane_ob; tri_ob; above_ob; instancer_ob; lamp_ob] true
    = FINISHED parts reports ∧ length parts = 2 ∧ length reports = 1.
Proof.
  destruct (execute inverted_identity (Some plane_ob)
              [plane_ob; tri_ob; above_ob; instancer_ob; lamp_ob] true)
    as [rs|parts reports|e rs] eqn:Hrun;
    [by vm_compute in Hrun| |by vm_compute in Hrun].
  exists parts, reports. split; [done|].
  destruct (X17_parts_and_warnings _ _ _ _ _ _ Hrun) as (act & [= <-] & Hcount & _ & _).
  vm_compute in Hrun. injection Hrun as <- <-. by vm_compute.
Defined.

(** X18: [execute] raises [UnboundLocalError], after the "selection is
    empty" warning, exactly when the active object is a mesh and fewer than
    two objects are selected, which [poll] rules out; and unpacking an
    element of the object list as [o, wM] never fails. *)
Theorem X18_execute_exceptions inverted active sel fill :
  let r := execute inverted active sel fill in
  ((∃ reports, r = Raised UnboundLocalError reports) ↔
     ∃ act, active = Some act ∧ ob_type act = "MESH"%string ∧ length sel < 2) ∧
  (poll active sel = true → ∀ reports, r ≠ Raised UnboundLocalError reports) ∧
  (∀ reports, r ≠ Raised TypeError reports).
Proof.
  intros r.
  assert (∀ e reports, r = Raised e reports →
            (e = UnboundLocalError ∧
             ∃ act, active = Some act ∧ ob_type act = "MESH"%string ∧ length sel < 2) ∨
            (e = ValueError ∧ 2 ≤ length sel) ∨
            ((e = AttributeError ∨ e = SectionRaised IndexError) ∧ 2 ≤ length sel))
    as Hcases.
  { intros e reports. subst r. unfold execute. destruct active as [act|]; [|done].
    case_bool_decide as Hty; [done|]. case_bool_decide as Hlen.
    - cbv zeta. destruct (inverted (matrix_world act)) as [itM|].
      + rewrite getObjectsAndDuplis_expansion.
        pose proof (cut_items_run act (matrix_world act) itM fill
                      (sel ≫= expansion false) [] []) as Hrun.
        destruct (cut_items _ _ _ _ _ _) as [[e' rs']|[ps' rs']]; [|done].
        destruct Hrun as [He _]. intros [= <- <-]. by right; right.
      + intros [= <- <-]. by right; left.
    - intros [= <- <-]. left. split; [done|]. exists act. split_and!; [done| |lia].
      by destruct (decide (ob_type act = "MESH"%string)). }
  split_and!.
  - split.
    + intros [reports Hr].
      destruct (Hcases _ _ Hr) as [[_ ?]|[[? _]|[[?|?] _]]]; done.
    + intros (act & -> & Hty & Hlen). subst r. unfold execute.
      rewrite bool_decide_eq_false_2 by (by intros ?).
      rewrite bool_decide_eq_false_2 by lia. by eexists.
  - intros Hpoll reports Hr.
    destruct (Hcases _ _ Hr) as [[_ (act & -> & _ & Hlen)]|[[? _]|[[?|?] _]]]; [|done..].
    unfold poll in Hpoll. by rewrite bool_decide_eq_false_2 in Hpoll by lia.
  - intros reports Hr.
    destruct (Hcases _ _ Hr) as [[? _]|[[? _]|[[?|?] _]]]; done.
Qed.


